(** * adverbs: RAII wrappers over the InfiniBand verbs API

    A shallow embedding of the C++ header [adverbs.h] (classes
    [scoped_device_list] and [context_handle], and the earlier
    [device_handle]) and of the Python-binding proxy [IBDeviceProxy],
    followed by theorems about enumeration, lookup, opening, port queries
    and exactly-once release.

    The verbs primitives ([ibv_get_device_list], [ibv_open_device], ...) are
    not part of the repository: they are taken as a parameter, a [driver]
    whose every answer may depend on the whole history of calls made so far.
    Every call into the driver is logged, so that "which primitive was called,
    with what, and how often" is a statement about the log. *)

From Stdlib Require Import ZArith String Ascii Strings.Byte DecimalString.
From stdpp Require Import base gmap list strings.

(** ** <infiniband/verbs.h>: the data the wrappers read *)

Module verbs.

Inductive ibv_node_type :=
| IBV_NODE_UNKNOWN
| IBV_NODE_CA
| IBV_NODE_SWITCH
| IBV_NODE_ROUTER
| IBV_NODE_RNIC
| IBV_NODE_USNIC
| IBV_NODE_USNIC_UDP.

(** [struct ibv_device], with the fields the repository reads.  [name] is a
    [char[IBV_SYSFS_NAME_MAX]] buffer, the others are C strings too. *)
Record ibv_device := {
  node_type : ibv_node_type;
  name : string;
  dev_name : string;
  dev_path : string;
  ibdev_path : string;
}.

(** [struct ibv_context *] is opaque to the wrappers: a non-null pointer
    is an address. *)
Definition ibv_context := N.

(** [struct ibv_device_attr]; [phys_port_cnt] is a [uint8_t]. *)
Record ibv_device_attr := {
  max_mr_size : Z;
  max_qp : Z;
  phys_port_cnt : byte;
}.

(** [struct ibv_port_attr]; [link_layer] is a [uint8_t] holding one of the
    [IBV_LINK_LAYER_*] constants. *)
Record ibv_port_attr := {
  state : Z;
  lid : Z;
  link_layer : Z;
}.

Definition IBV_LINK_LAYER_UNSPECIFIED : Z := 0.
Definition IBV_LINK_LAYER_INFINIBAND : Z := 1.
Definition IBV_LINK_LAYER_ETHERNET : Z := 2.

(** A value-initialised [ibv_port_attr], as [std::vector<T>(n)] makes. *)
Definition zero_port_attr : ibv_port_attr :=
  {| state := 0; lid := 0; link_layer := 0 |}.

(** One call into the verbs library, with its arguments.  A pointer
    argument that may be null is an [option]. *)
Inductive call :=
| Call_ibv_get_device_list
| Call_ibv_free_device_list (list_ : option (list ibv_device))
| Call_ibv_get_device_index (dev : ibv_device)
| Call_ibv_get_device_guid (dev : ibv_device)
| Call_ibv_open_device (dev : ibv_device)
| Call_ibv_close_device (ctx : option ibv_context)
| Call_ibv_query_device (ctx : ibv_context)
| Call_ibv_query_port (ctx : ibv_context) (port_num : Z).

(** The verbs library as the wrappers see it.  Each primitive answers as a
    function of the calls made before it (the first argument) and of its
    arguments.
    - [ibv_get_device_list] gives the array of devices and writes its
      length through [num], or gives NULL ([None]) and leaves no count;
    - [ibv_get_device_index] gives an [int]; -1 says that the kernel
      cannot resolve indexes;
    - [ibv_open_device] gives a context or NULL;
    - the two queries give a return code (0 is success) and the struct
      they wrote;
    - [IBV_SYSFS_NAME_MAX] is the header's bound on [ibv_device.name]. *)
Record driver := {
  IBV_SYSFS_NAME_MAX : nat;
  ibv_get_device_list : list call → option (list ibv_device);
  ibv_get_device_index : list call → ibv_device → Z;
  ibv_get_device_guid : list call → ibv_device → Z;
  ibv_open_device : list call → ibv_device → option ibv_context;
  ibv_query_device : list call → ibv_context → Z * ibv_device_attr;
  ibv_query_port : list call → ibv_context → Z → Z * ibv_port_attr;
}.

(** What [ibv_get_device_index] returns where index resolution is
    unsupported. *)
Definition index_unsupported : Z := (-1)%Z.

End verbs.
Export verbs.

(** ** The C++ the wrappers are written in *)

Module cxx.

(** The only exception type thrown is [std::runtime_error(what)]. *)
Inductive exception :=
| runtime_error (what : string).

(** [std::shared_ptr]'s control block: the deleter call to make on the
    managed pointer, and the number of owners. *)
Record control_block := {
  cb_deleter : call;
  use_count : nat;
}.

(** The state a run threads: the live control blocks, the next free
    control-block address, and the log of driver calls. *)
Record world := {
  blocks : gmap nat control_block;
  next_block : nat;
  trace : list call;
}.

(** How an evaluation ends: with a value, with a thrown exception, or in
    undefined behaviour (a null or out-of-bounds dereference, a use of a
    released owner). *)
Inductive outcome (A : Type) :=
| Ret (a : A)
| Throw (e : exception)
| Undef.
Arguments Ret {A} a.
Arguments Throw {A} e.
Arguments Undef {A}.

Definition M (A : Type) : Type := world → outcome A * world.

Definition ret {A} (a : A) : M A := λ w, (Ret a, w).

Definition bind {A B} (m : M A) (k : A → M B) : M B := λ w,
  match m w with
  | (Ret a, w') => k a w'
  | (Throw e, w') => (Throw e, w')
  | (Undef, w') => (Undef, w')
  end.

Definition throw {A} (e : exception) : M A := λ w, (Throw e, w).

Definition undefined {A} : M A := λ w, (Undef, w).

(** A local object with a destructor: [dtor] runs when [body] returns and
    when it throws (stack unwinding). *)
Definition scoped {A B} (ctor : M A) (dtor : A → M unit) (body : A → M B)
  : M B :=
  bind ctor (λ a w,
    match body a w with
    | (Ret b, w') => bind (dtor a) (λ _, ret b) w'
    | (Throw e, w') => bind (dtor a) (λ _, throw e) w'
    | (Undef, w') => (Undef, w')
    end).

(** [try { m } catch (...) {}], the result dropped. *)
Definition try_ {A} (m : M A) : M unit := λ w,
  match m w with
  | (Ret _, w') => (Ret tt, w')
  | (Throw _, w') => (Ret tt, w')
  | (Undef, w') => (Undef, w')
  end.

(** The calls made so far, and the logging of one more. *)
Definition history : M (list call) := λ w, (Ret (trace w), w).

Definition log (c : call) : M unit := λ w,
  (Ret tt,
   {| blocks := blocks w; next_block := next_block w;
      trace := trace w ++ [c] |}).

(** *** std::shared_ptr<T> with a custom deleter *)

(** A [shared_ptr] value: the stored pointer ([None] is null) and the
    address of its control block. *)
Record shared_ptr (T : Type) := {
  sp_get : option T;
  sp_block : nat;
}.
Arguments sp_get {T} s.
Arguments sp_block {T} s.

(** [shared_ptr<T>(p, d)]: a new control block with one owner.  The block
    is made for a null [p] too. *)
Definition shared_ptr_ctor {T} (p : option T) (deleter : call)
  : M (shared_ptr T) := λ w,
  let b := next_block w in
  (Ret {| sp_get := p; sp_block := b |},
   {| blocks := <[b := {| cb_deleter := deleter; use_count := 1 |}]> (blocks w);
      next_block := S b;
      trace := trace w |}).

(** Copy construction: one more owner of the same block. *)
Definition shared_ptr_copy {T} (s : shared_ptr T) : M (shared_ptr T) := λ w,
  match blocks w !! sp_block s with
  | Some cb =>
      (Ret s,
       {| blocks := <[sp_block s :=
                       {| cb_deleter := cb_deleter cb;
                          use_count := S (use_count cb) |}]> (blocks w);
          next_block := next_block w;
          trace := trace w |})
  | None => (Undef, w)
  end.

(** Destruction: one owner fewer; the last owner runs the deleter, on a
    null pointer as well, and frees the block. *)
Definition shared_ptr_dtor {T} (s : shared_ptr T) : M unit := λ w,
  match blocks w !! sp_block s with
  | Some cb =>
      match use_count cb with
      | S (S n) =>
          (Ret tt,
           {| blocks := <[sp_block s :=
                           {| cb_deleter := cb_deleter cb;
                              use_count := S n |}]> (blocks w);
              next_block := next_block w;
              trace := trace w |})
      | _ =>
          (Ret tt,
           {| blocks := delete (sp_block s) (blocks w);
              next_block := next_block w;
              trace := trace w ++ [cb_deleter cb] |})
      end
  | None => (Undef, w)
  end.

End cxx.
Export cxx.

Notation "x <- m ;; k" := (bind m (λ x, k))
  (at level 100, m at next level, right associativity, only parsing).

(** ** <cstring> and <algorithm> *)

Module libc.

(** The character code, as [unsigned char]. *)
Definition uchar (c : ascii) : Z := Z.of_nat (nat_of_ascii c).

(** [strncmp(s1, s2, n)]: compares at most [n] characters, stopping at the
    terminating NUL; the end of the Rocq string is that NUL.  The sign of
    the result orders the strings; 0 means equal within the bound. *)
Fixpoint strncmp (s1 s2 : string) (n : nat) : Z :=
  match n with
  | O => 0
  | S n' =>
      match s1, s2 with
      | EmptyString, EmptyString => 0
      | EmptyString, String c2 _ => 0 - uchar c2
      | String c1 _, EmptyString => uchar c1 - 0
      | String c1 r1, String c2 r2 =>
          if Ascii.eqb c1 c2
          then if Ascii.eqb c1 zero then 0%Z else strncmp r1 r2 n'
          else (uchar c1 - uchar c2)%Z
      end
  end.

(** [std::remove_if(first, last, pred)] on a vector: the elements that do
    not satisfy [pred] are moved to the front in their order, the rest of
    the vector keeps what it held; the result is the vector and the new
    logical end. *)
Definition remove_if {A} (pred : A → bool) (v : list A) : list A * nat :=
  let kept := List.filter (λ x, negb (pred x)) v in
  (kept ++ drop (length kept) v, length kept).

(** [v.erase(first, v.end())]: drops the elements from [first] on. *)
Definition erase_to_end {A} (v : list A) (first : nat) : list A :=
  take first v.

(** [(size_t) i] for an [int] [i], on a 64-bit target. *)
Definition to_size_t (i : Z) : Z := (i mod 2 ^ 64)%Z.

(** [(uint8_t) i]. *)
Definition to_uint8_t (i : Z) : Z := (i mod 2 ^ 8)%Z.

(** [printf]'s [%d]. *)
Definition format_d (i : Z) : string :=
  NilZero.string_of_int (Z.to_int i).

End libc.
Export libc.

(** ** Calls into the verbs library *)

Module ffi.
Section with_driver.
Variable drv : driver.

(** Every call is answered from the history before it and then logged. *)
Definition call_ibv_get_device_list : M (option (list ibv_device)) :=
  h <- history;;
  _ <- log Call_ibv_get_device_list;;
  ret (ibv_get_device_list drv h).

Definition call_ibv_get_device_index (dev : ibv_device) : M Z :=
  h <- history;;
  _ <- log (Call_ibv_get_device_index dev);;
  ret (ibv_get_device_index drv h dev).

Definition call_ibv_get_device_guid (dev : ibv_device) : M Z :=
  h <- history;;
  _ <- log (Call_ibv_get_device_guid dev);;
  ret (ibv_get_device_guid drv h dev).

Definition call_ibv_open_device (dev : ibv_device)
  : M (option ibv_context) :=
  h <- history;;
  _ <- log (Call_ibv_open_device dev);;
  ret (ibv_open_device drv h dev).

(** The queries dereference the context: on a null one they are undefined. *)
Definition call_ibv_query_device (ctx : option ibv_context)
  : M (Z * ibv_device_attr) :=
  match ctx with
  | None => undefined
  | Some c =>
      h <- history;;
      _ <- log (Call_ibv_query_device c);;
      ret (ibv_query_device drv h c)
  end.

Definition call_ibv_query_port (ctx : option ibv_context) (port_num : Z)
  : M (Z * ibv_port_attr) :=
  match ctx with
  | None => undefined
  | Some c =>
      h <- history;;
      _ <- log (Call_ibv_query_port c port_num);;
      ret (ibv_query_port drv h c port_num)
  end.

End with_driver.
End ffi.
Export ffi.

(** ** adverbs.h *)

Module adverbs.

(** *** class scoped_device_list *)
Module scoped_device_list.

(** The fields, in declaration order:
    [int _size = 0; std::shared_ptr<struct ibv_device *> _device_list;] *)
Record t := {
  _size : Z;
  _device_list : shared_ptr (list ibv_device);
}.

Section with_driver.
Variable drv : driver.

(** [scoped_device_list()
      : _device_list(ibv_get_device_list(&_size), ibv_free_device_list) {}]
    [_size] starts at its default 0 and is overwritten by the primitive
    when it reports a count.  No result is checked. *)
Definition ctor : M t :=
  let _size0 := 0%Z in
  r <- call_ibv_get_device_list drv;;
  let _size1 :=
    match r with
    | Some devs => Z.of_nat (length devs)
    | None => _size0
    end in
  sp <- shared_ptr_ctor r (Call_ibv_free_device_list r);;
  ret {| _size := _size1; _device_list := sp |}.

(** The implicit copy constructor: member-wise. *)
Definition copy (l : t) : M t :=
  sp <- shared_ptr_copy (_device_list l);;
  ret {| _size := _size l; _device_list := sp |}.

(** The implicit destructor. *)
Definition dtor (l : t) : M unit :=
  shared_ptr_dtor (_device_list l).

(** [get()] *)
Definition get (l : t) : option (list ibv_device) :=
  sp_get (_device_list l).

(** [size()]: [(size_t)_size] *)
Definition size (l : t) : Z := to_size_t (_size l).

(** [*(p[i])] for the array pointer [p]: reading outside the array, or
    through a null pointer, is undefined. *)
Definition deref (p : option (list ibv_device)) (i : nat)
  : M ibv_device :=
  match p with
  | None => undefined
  | Some arr =>
      match arr !! i with
      | Some dev => ret dev
      | None => undefined
      end
  end.

(** [operator[](size_t i)]: [return *(_device_list.get()[i]);] *)
Definition index (l : t) (i : nat) : M ibv_device :=
  deref (get l) i.

(** The loop of [lookup_by_predicate], from iterator [begin() + i] with
    [remaining] steps to go to [end()]. *)
Fixpoint lookup_loop (predicate : ibv_device → M bool)
    (p : option (list ibv_device)) (remaining i : nat)
  : M (option ibv_device) :=
  match remaining with
  | O => ret None
  | S r =>
      dev <- deref p i;;
      b <- predicate dev;;
      if b : bool then ret (Some dev)
      else lookup_loop predicate p r (S i)
  end.

(** [lookup_by_predicate(predicate)]:
    [for (const auto dev : *this) if (predicate(dev)) return dev;
     return nullptr;]
    over [begin() = get()] to [end() = get() + _size]; an [end()] before
    [begin()] would be undefined. *)
Definition lookup_by_predicate (l : t) (predicate : ibv_device → M bool)
  : M (option ibv_device) :=
  if (_size l <? 0)%Z then undefined
  else lookup_loop predicate (get l) (Z.to_nat (_size l)) 0.

(** [lookup_by_name(const char *name)] *)
Definition lookup_by_name (l : t) (name_ : string)
  : M (option ibv_device) :=
  lookup_by_predicate l (λ dev,
    ret (strncmp (name dev) name_ (IBV_SYSFS_NAME_MAX drv) =? 0)%Z).

(** [lookup_by_kernel_index(int kernel_index)] *)
Definition lookup_by_kernel_index (l : t) (kernel_index : Z)
  : M (option ibv_device) :=
  lookup_by_predicate l (λ dev,
    idx <- call_ibv_get_device_index drv dev;;
    ret (idx =? kernel_index)%Z).

(** [lookup_by_guid(uint64_t guid)] *)
Definition lookup_by_guid (l : t) (guid : Z) : M (option ibv_device) :=
  lookup_by_predicate l (λ dev,
    g <- call_ibv_get_device_guid drv dev;;
    ret (g =? guid)%Z).

(** A range-for over the list, [for (auto dev : device_list) ...], that
    collects what its body [f] makes of every entry. *)
Fixpoint collect_loop {A} (f : ibv_device → M A)
    (p : option (list ibv_device)) (remaining i : nat) : M (list A) :=
  match remaining with
  | O => ret []
  | S r =>
      dev <- deref p i;;
      a <- f dev;;
      rest <- collect_loop f p r (S i);;
      ret (a :: rest)
  end.

Definition for_each {A} (l : t) (f : ibv_device → M A) : M (list A) :=
  if (_size l <? 0)%Z then undefined
  else collect_loop f (get l) (Z.to_nat (_size l)) 0.

End with_driver.
End scoped_device_list.

(** *** class context_handle *)
Module context_handle.

(** [std::shared_ptr<struct ibv_context> _context;] *)
Record t := {
  _context : shared_ptr ibv_context;
}.

Section with_driver.
Variable drv : driver.

(** [explicit context_handle(const struct ibv_device *device)
      : _context(ibv_open_device(device), ibv_close_device) {}]
    The result of [ibv_open_device] is not checked. *)
Definition ctor (device : ibv_device) : M t :=
  p <- call_ibv_open_device drv device;;
  sp <- shared_ptr_ctor p (Call_ibv_close_device p);;
  ret {| _context := sp |}.

Definition copy (h : t) : M t :=
  sp <- shared_ptr_copy (_context h);;
  ret {| _context := sp |}.

Definition dtor (h : t) : M unit :=
  shared_ptr_dtor (_context h).

(** [get()] *)
Definition get (h : t) : option ibv_context := sp_get (_context h).

(** [query_device_attr()] *)
Definition query_device_attr (h : t) : M ibv_device_attr :=
  r <- call_ibv_query_device drv (get h);;
  if (r.1 =? 0)%Z then ret r.2
  else throw (runtime_error "ibv_query_device failed").

(** [phys_port_cnt], promoted to [int]. *)
Definition port_count (attr : ibv_device_attr) : nat :=
  N.to_nat (Byte.to_N (phys_port_cnt attr)).

(** The loop of [query_ports]:
    [for (int i = 0; i < attr.phys_port_cnt; ++i)
       if (ibv_query_port(_context.get(), i + 1, &port_attr[i])) throw ...;]
    with [remaining = attr.phys_port_cnt - i]; the port number is
    narrowed to the primitive's [uint8_t] parameter. *)
Fixpoint query_ports_loop (h : t) (remaining i : nat)
    (port_attr : list ibv_port_attr) : M (list ibv_port_attr) :=
  match remaining with
  | O => ret port_attr
  | S r =>
      q <- call_ibv_query_port drv (get h)
             (to_uint8_t (Z.of_nat i + 1));;
      let port_attr' := <[i := q.2]> port_attr in
      if (q.1 =? 0)%Z then query_ports_loop h r (S i) port_attr'
      else throw (runtime_error "ibv_query_port failed")
  end.

(** [query_ports()] *)
Definition query_ports (h : t) : M (list ibv_port_attr) :=
  attr <- query_device_attr h;;
  let port_attr := replicate (port_count attr) zero_port_attr in
  query_ports_loop h (port_count attr) 0 port_attr.

(** [query_ports(filter)]:
    [ports.erase(std::remove_if(ports.begin(), ports.end(), filter),
                 ports.end());] *)
Definition query_ports_filter (h : t) (filter : ibv_port_attr → bool)
  : M (list ibv_port_attr) :=
  ports <- query_ports h;;
  let r := remove_if filter ports in
  ret (erase_to_end r.1 r.2).

End with_driver.
End context_handle.

End adverbs.

(** ** The earlier adverbs.h: class device_handle *)

Module adverbs_0.
Module device_handle.

Record t := {
  _context : shared_ptr ibv_context;
}.

Section with_driver.
Variable drv : driver.

Definition ctor (device : ibv_device) : M t :=
  p <- call_ibv_open_device drv device;;
  sp <- shared_ptr_ctor p (Call_ibv_close_device p);;
  ret {| _context := sp |}.

Definition get (h : t) : option ibv_context := sp_get (_context h).

Definition query_device_attr (h : t) : M ibv_device_attr :=
  r <- call_ibv_query_device drv (get h);;
  if (r.1 =? 0)%Z then ret r.2
  else throw (runtime_error "ibv_query_device failed").

Definition port_count (attr : ibv_device_attr) : nat :=
  N.to_nat (Byte.to_N (phys_port_cnt attr)).

Fixpoint query_ports_loop (h : t) (remaining i : nat)
    (port_attr : list ibv_port_attr) : M (list ibv_port_attr) :=
  match remaining with
  | O => ret port_attr
  | S r =>
      q <- call_ibv_query_port drv (get h)
             (to_uint8_t (Z.of_nat i + 1));;
      let port_attr' := <[i := q.2]> port_attr in
      if (q.1 =? 0)%Z then query_ports_loop h r (S i) port_attr'
      else throw (runtime_error "ibv_query_port failed")
  end.

Definition query_ports (h : t) : M (list ibv_port_attr) :=
  attr <- query_device_attr h;;
  let port_attr := replicate (port_count attr) zero_port_attr in
  query_ports_loop h (port_count attr) 0 port_attr.

(** [query_ports(filter)]:
    [ports.erase(
       std::remove_if(ports.begin(), ports.end(),
                      [&filter](const auto &port) { return !filter(port); }),
       ports.end());] *)
Definition query_ports_filter (h : t) (filter : ibv_port_attr → bool)
  : M (list ibv_port_attr) :=
  ports <- query_ports h;;
  let r := remove_if (λ port, negb (filter port)) ports in
  ret (erase_to_end r.1 r.2).

End with_driver.
End device_handle.
End adverbs_0.

(** ** std::string from a char buffer *)

Module c_strings.

(** The header's bound on [ibv_device.dev_path] and [ibv_device.ibdev_path]
    (the value <infiniband/verbs.h> gives it). *)
Definition IBV_SYSFS_PATH_MAX : nat := 256.
Arguments IBV_SYSFS_PATH_MAX : simpl never.

(** Reading the C string held in a [char[bound]] buffer: the characters
    before the first NUL, the end of the Rocq string being a NUL.  A buffer
    with no NUL among its [bound] characters holds no C string: the read
    runs past the array ([None]). *)
Fixpoint read_c_string (bound : nat) (buf : string) : option string :=
  match bound with
  | O => None
  | S b =>
      match buf with
      | EmptyString => Some EmptyString
      | String c r =>
          if Ascii.eqb c zero then Some EmptyString
          else option_map (String c) (read_c_string b r)
      end
  end.

(** [std::string(const char* s)] on such a buffer; running past the array is
    undefined. *)
Definition std_string (bound : nat) (buf : string) : M string :=
  match read_c_string bound buf with
  | Some s => ret s
  | None => undefined
  end.

End c_strings.
Export c_strings.

(** ** The Python binding: struct IBDeviceProxy and list_devices *)

Module py_adverbs.

Module IBDeviceProxy.

(** The fields, in declaration order. *)
Record t := {
  kernel_index : Z;
  guid : Z;
  node_type : ibv_node_type;
  name : string;
  dev_name : string;
  dev_path : string;
  ibdev_path : string;
}.

(** [format("IBDeviceProxy with kernel index %d not found", kernel_index)] *)
Definition not_found_message (kernel_index_ : Z) : string :=
  "IBDeviceProxy with kernel index " +:+ format_d kernel_index_
    +:+ " not found".

Section with_driver.
Variable drv : driver.

(** [explicit IBDeviceProxy(const struct ibv_device* dev)]: the members
    are initialised in declaration order, the index and the GUID by a
    call each, the four strings by [std::string(const char* s)] on the
    entry's buffers [name[IBV_SYSFS_NAME_MAX]],
    [dev_name[IBV_SYSFS_NAME_MAX]], [dev_path[IBV_SYSFS_PATH_MAX]] and
    [ibdev_path[IBV_SYSFS_PATH_MAX]]. *)
Definition ctor (dev : ibv_device) : M t :=
  kernel_index_ <- call_ibv_get_device_index drv dev;;
  guid_ <- call_ibv_get_device_guid drv dev;;
  name_ <- std_string (IBV_SYSFS_NAME_MAX drv) (verbs.name dev);;
  dev_name_ <- std_string (IBV_SYSFS_NAME_MAX drv) (verbs.dev_name dev);;
  dev_path_ <- std_string IBV_SYSFS_PATH_MAX (verbs.dev_path dev);;
  ibdev_path_ <- std_string IBV_SYSFS_PATH_MAX (verbs.ibdev_path dev);;
  ret {| kernel_index := kernel_index_;
         guid := guid_;
         node_type := verbs.node_type dev;
         name := name_;
         dev_name := dev_name_;
         dev_path := dev_path_;
         ibdev_path := ibdev_path_ |}.

(** [open()]:
    [adverbs::scoped_device_list device_list;
     auto* _dev = device_list.lookup_by_kernel_index(kernel_index);
     if (_dev == nullptr) throw std::runtime_error(format(...));
     return adverbs::context_handle(_dev);]
    [device_list] is destroyed on both ways out. *)
Definition open (self : t) : M adverbs.context_handle.t :=
  scoped (adverbs.scoped_device_list.ctor drv)
         adverbs.scoped_device_list.dtor
    (λ device_list,
      _dev <- adverbs.scoped_device_list.lookup_by_kernel_index drv
                device_list (kernel_index self);;
      match _dev with
      | None =>
          throw (runtime_error (not_found_message (kernel_index self)))
      | Some dev => adverbs.context_handle.ctor drv dev
      end).

End with_driver.
End IBDeviceProxy.

(** [list_devices()]: one proxy per entry of a fresh list, in its order. *)
Definition list_devices (drv : driver) : M (list IBDeviceProxy.t) :=
  scoped (adverbs.scoped_device_list.ctor drv)
         adverbs.scoped_device_list.dtor
    (λ device_list,
      adverbs.scoped_device_list.for_each device_list
        (IBDeviceProxy.ctor drv)).

End py_adverbs.

(** ** Clients: programs over named owners

    To speak about copies and the order in which they are destroyed, a
    client holds its objects in named variables and runs a list of
    statements over them.  Using a variable that holds no live object, or
    constructing into one that does, is undefined.  Exceptions thrown by a
    query are caught by the client. *)

Module client.
Import adverbs.

(** Statements over [context_handle] variables. *)
Inductive context_stmt :=
| CopyContext (dst src : nat)        (* context_handle dst = src; *)
| DestroyContext (x : nat)           (* x's lifetime ends *)
| QueryDeviceAttr (x : nat)          (* x.query_device_attr() *)
| QueryPorts (x : nat)               (* x.query_ports() *)
| QueryPortsFilter (x : nat) (filter : ibv_port_attr → bool).

(** Statements over [scoped_device_list] variables. *)
Inductive list_stmt :=
| CopyList (dst src : nat)           (* scoped_device_list dst = src; *)
| DestroyList (x : nat)              (* x's lifetime ends *)
| LookupByName (x : nat) (name_ : string)
| LookupByKernelIndex (x : nat) (kernel_index : Z)
| LookupByGuid (x : nat) (guid : Z).

(** Running a program: one statement after the other, over the variables
    the statements leave. *)
Fixpoint run {T Stmt : Type} (step : gmap nat T → Stmt → M (gmap nat T))
    (prog : list Stmt) (env : gmap nat T) : M (gmap nat T) :=
  match prog with
  | [] => ret env
  | s :: rest => env' <- step env s;; run step rest env'
  end.

Section with_driver.
Variable drv : driver.

Definition context_step (env : gmap nat context_handle.t)
    (s : context_stmt) : M (gmap nat context_handle.t) :=
  match s with
  | CopyContext dst src =>
      match env !! src, env !! dst with
      | Some h, None =>
          h' <- context_handle.copy h;; ret (<[dst := h']> env)
      | _, _ => undefined
      end
  | DestroyContext x =>
      match env !! x with
      | Some h => _ <- context_handle.dtor h;; ret (delete x env)
      | None => undefined
      end
  | QueryDeviceAttr x =>
      match env !! x with
      | Some h => _ <- try_ (context_handle.query_device_attr drv h);; ret env
      | None => undefined
      end
  | QueryPorts x =>
      match env !! x with
      | Some h => _ <- try_ (context_handle.query_ports drv h);; ret env
      | None => undefined
      end
  | QueryPortsFilter x filter =>
      match env !! x with
      | Some h =>
          _ <- try_ (context_handle.query_ports_filter drv h filter);;
          ret env
      | None => undefined
      end
  end.

Definition context_run (prog : list context_stmt)
    (env : gmap nat context_handle.t) : M (gmap nat context_handle.t) :=
  run context_step prog env.

Definition list_step (env : gmap nat scoped_device_list.t)
    (s : list_stmt) : M (gmap nat scoped_device_list.t) :=
  match s with
  | CopyList dst src =>
      match env !! src, env !! dst with
      | Some l, None =>
          l' <- scoped_device_list.copy l;; ret (<[dst := l']> env)
      | _, _ => undefined
      end
  | DestroyList x =>
      match env !! x with
      | Some l => _ <- scoped_device_list.dtor l;; ret (delete x env)
      | None => undefined
      end
  | LookupByName x name_ =>
      match env !! x with
      | Some l =>
          _ <- try_ (scoped_device_list.lookup_by_name drv l name_);;
          ret env
      | None => undefined
      end
  | LookupByKernelIndex x kernel_index =>
      match env !! x with
      | Some l =>
          _ <- try_ (scoped_device_list.lookup_by_kernel_index drv l
                       kernel_index);;
          ret env
      | None => undefined
      end
  | LookupByGuid x guid =>
      match env !! x with
      | Some l =>
          _ <- try_ (scoped_device_list.lookup_by_guid drv l guid);;
          ret env
      | None => undefined
      end
  end.

Definition list_run (prog : list list_stmt)
    (env : gmap nat scoped_device_list.t)
  : M (gmap nat scoped_device_list.t) :=
  run list_step prog env.

End with_driver.

(** The calls that release a resource. *)
Definition is_release (c : call) : bool :=
  match c with
  | Call_ibv_free_device_list _ | Call_ibv_close_device _ => true
  | _ => false
  end.

End client.

(** ** A mock verbs library

    Two adapters, "mlx5_0" (kernel index 0, GUID 0xAA) and "mlx5_1" (kernel
    index 1, GUID 0xBB), each with two ports: port 1 runs InfiniBand and
    port 2 Ethernet.  The variants fail one primitive each. *)

Module mock.

Definition mlx5_0 : ibv_device :=
  {| node_type := IBV_NODE_CA;
     name := "mlx5_0";
     dev_name := "uverbs0";
     dev_path := "/sys/class/infiniband_verbs/uverbs0";
     ibdev_path := "/sys/class/infiniband/mlx5_0" |}.

Definition mlx5_1 : ibv_device :=
  {| node_type := IBV_NODE_CA;
     name := "mlx5_1";
     dev_name := "uverbs1";
     dev_path := "/sys/class/infiniband_verbs/uverbs1";
     ibdev_path := "/sys/class/infiniband/mlx5_1" |}.

Definition is_mlx5_0 (dev : ibv_device) : bool :=
  String.eqb (name dev) "mlx5_0".

Definition attr : ibv_device_attr :=
  {| max_mr_size := 2 ^ 40; max_qp := 131072; phys_port_cnt := x02 |}.

Definition ib_port : ibv_port_attr :=
  {| state := 4; lid := 7; link_layer := IBV_LINK_LAYER_INFINIBAND |}.

Definition eth_port : ibv_port_attr :=
  {| state := 4; lid := 0; link_layer := IBV_LINK_LAYER_ETHERNET |}.

(** The predicate of the test: [port.link_layer == IBV_LINK_LAYER_INFINIBAND]. *)
Definition is_infiniband (port : ibv_port_attr) : bool :=
  (link_layer port =? IBV_LINK_LAYER_INFINIBAND)%Z.

Definition healthy : driver :=
  {| IBV_SYSFS_NAME_MAX := 64;
     ibv_get_device_list := λ _, Some [mlx5_0; mlx5_1];
     ibv_get_device_index := λ _ dev, if is_mlx5_0 dev then 0%Z else 1%Z;
     ibv_get_device_guid := λ _ dev, if is_mlx5_0 dev then 170%Z else 187%Z;
     ibv_open_device := λ _ dev, Some (if is_mlx5_0 dev then 4096 else 8192)%N;
     ibv_query_device := λ _ _, (0%Z, attr);
     ibv_query_port := λ _ _ port_num,
       (0%Z, if (port_num =? 1)%Z then ib_port else eth_port) |}.

(** [ibv_get_device_list] fails. *)
Definition no_enumeration : driver :=
  {| IBV_SYSFS_NAME_MAX := 64;
     ibv_get_device_list := λ _, None;
     ibv_get_device_index := ibv_get_device_index healthy;
     ibv_get_device_guid := ibv_get_device_guid healthy;
     ibv_open_device := ibv_open_device healthy;
     ibv_query_device := ibv_query_device healthy;
     ibv_query_port := ibv_query_port healthy |}.

(** [ibv_open_device] fails. *)
Definition no_open : driver :=
  {| IBV_SYSFS_NAME_MAX := 64;
     ibv_get_device_list := ibv_get_device_list healthy;
     ibv_get_device_index := ibv_get_device_index healthy;
     ibv_get_device_guid := ibv_get_device_guid healthy;
     ibv_open_device := λ _ _, None;
     ibv_query_device := ibv_query_device healthy;
     ibv_query_port := ibv_query_port healthy |}.

(** A kernel without device indexes: [ibv_get_device_index] gives -1. *)
Definition no_index : driver :=
  {| IBV_SYSFS_NAME_MAX := 64;
     ibv_get_device_list := ibv_get_device_list healthy;
     ibv_get_device_index := λ _ _, index_unsupported;
     ibv_get_device_guid := ibv_get_device_guid healthy;
     ibv_open_device := ibv_open_device healthy;
     ibv_query_device := ibv_query_device healthy;
     ibv_query_port := ibv_query_port healthy |}.

(** The second port query fails. *)
Definition bad_port_2 : driver :=
  {| IBV_SYSFS_NAME_MAX := 64;
     ibv_get_device_list := ibv_get_device_list healthy;
     ibv_get_device_index := ibv_get_device_index healthy;
     ibv_get_device_guid := ibv_get_device_guid healthy;
     ibv_open_device := ibv_open_device healthy;
     ibv_query_device := ibv_query_device healthy;
     ibv_query_port := λ _ _ port_num,
       (if (port_num =? 2)%Z then 22%Z else 0%Z, ib_port) |}.

(** The state a process starts in. *)
Definition start : world :=
  {| blocks := ∅; next_block := 0; trace := [] |}.

(** The directory and the context the constructors build on [healthy]. *)
Definition the_list : adverbs.scoped_device_list.t :=
  {| adverbs.scoped_device_list._size := 2;
     adverbs.scoped_device_list._device_list :=
       {| sp_get := Some [mlx5_0; mlx5_1]; sp_block := 0 |} |}.

Definition the_context : adverbs.context_handle.t :=
  {| adverbs.context_handle._context :=
       {| sp_get := Some 8192%N; sp_block := 0 |} |}.

(** The same context held by the earlier [device_handle]. *)
Definition the_device_handle : adverbs_0.device_handle.t :=
  {| adverbs_0.device_handle._context :=
       {| sp_get := Some 8192%N; sp_block := 0 |} |}.

End mock.

(** ** Vocabulary of the statements *)

Module spec.
Import adverbs.

(** The characters [strncmp] looks at: at most [n] of them, up to the
    terminating NUL. *)
Fixpoint c_prefix (n : nat) (s : string) : string :=
  match n, s with
  | S n', String c r =>
      if Ascii.eqb c zero then EmptyString else String c (c_prefix n' r)
  | _, _ => EmptyString
  end.

(** The entries an enumeration result holds, in its order; none when the
    enumeration failed. *)
Definition entries_of (r : option (list ibv_device)) : list ibv_device :=
  default [] r.

(** The index calls of a scan that has looked at the first [j] entries. *)
Definition index_calls (entries : list ibv_device) (j : nat) : list call :=
  map Call_ibv_get_device_index (take j entries).

(** What the driver reports as the index of entry [j] when a scan that
    started after the calls [h] reaches it. *)
Definition reported_index (drv : driver) (h : list call)
    (entries : list ibv_device) (j : nat) : option Z :=
  match entries !! j with
  | Some dev =>
      Some (ibv_get_device_index drv (h ++ index_calls entries j) dev)
  | None => None
  end.

(** The history when [query_ports] has queried ports [1..i] after the
    calls [h]. *)
Definition port_history (h : list call) (c : ibv_context) (i : nat)
  : list call :=
  h ++ map (λ p, Call_ibv_query_port c (Z.of_nat p)) (seq 1 i).

(** The driver's answer to the query of port [i + 1] at that point. *)
Definition port_reply (drv : driver) (h : list call) (c : ibv_context)
    (i : nat) : Z * ibv_port_attr :=
  ibv_query_port drv (port_history h c i) c (Z.of_nat i + 1).

(** The release calls among a list of calls. *)
Definition releases (evs : list call) : list call :=
  List.filter client.is_release evs.

(** A computation is quiet when, whatever its outcome, it leaves every
    control block as it was and makes no release call. *)
Definition quiet {A} (m : M A) : Prop :=
  ∀ w, blocks (m w).2 = blocks w ∧
       ∃ evs, trace (m w).2 = trace w ++ evs ∧ releases evs = [].

(** Block [b] is live in [w] with deleter call [d] and [n] owners. *)
Definition owned (w : world) (b : nat) (d : call) (n : nat) : Prop :=
  blocks w !! b = Some {| cb_deleter := d; use_count := n |}.

(** Every variable of [env] holds a copy of [orig]. *)
Definition aliases {T} (orig : T) (env : gmap nat T) : Prop :=
  ∀ x v, env !! x = Some v → v = orig.

(** What a statement may do to the owners of one control block: keep some
    alive, with the count in step and nothing released, or destroy the last
    one, which makes the deleter call. *)
Definition keeps_or_releases {T Stmt} (destroys : Stmt → nat → Prop) (orig : T)
    (b : nat) (d : call) (env : gmap nat T) (s : Stmt) (w : world)
    (env' : gmap nat T) (w' : world) : Prop :=
  aliases orig env' ∧
  ((env' ≠ ∅ ∧ owned w' b d (size env') ∧
    ∃ evs, trace w' = trace w ++ evs ∧ releases evs = [])
   ∨
   (env' = ∅ ∧ blocks w' !! b = None ∧
    ∃ x, destroys s x ∧ env = {[x := orig]} ∧ trace w' = trace w ++ [d])).

End spec.
Export spec.

(** ** The earlier adverbs.h: class scoped_device_list

    The first version of the class holds the array in a raw pointer and
    frees it in a destructor of its own; its copy constructor is the
    implicit one. *)

Module earlier.
Module scoped_device_list.

(** [struct ibv_device **_device_list; int num_devices;]
    Neither member has an initialiser: [num_devices] holds a value only once
    the primitive has written one ([None] is the indeterminate value). *)
Record t := {
  _device_list : option (list ibv_device);
  num_devices : option Z;
}.

(** Reading [num_devices]; reading an indeterminate [int] is undefined. *)
Definition read_num_devices (l : t) : M Z :=
  match num_devices l with
  | Some n => ret n
  | None => undefined
  end.

Section with_driver.
Variable drv : driver.

(** [scoped_device_list() { _device_list = ibv_get_device_list(&num_devices); }] *)
Definition ctor : M t :=
  r <- call_ibv_get_device_list drv;;
  ret {| _device_list := r;
         num_devices :=
           match r with
           | Some devs => Some (Z.of_nat (length devs))
           | None => None
           end |}.

(** [~scoped_device_list() { ibv_free_device_list(_device_list); }] *)
Definition dtor (l : t) : M unit :=
  log (Call_ibv_free_device_list (_device_list l)).

(** The implicit copy constructor: both members are read and copied. *)
Definition copy (l : t) : M t :=
  n <- read_num_devices l;;
  ret {| _device_list := _device_list l; num_devices := Some n |}.

(** [get()] *)
Definition get (l : t) : option (list ibv_device) := _device_list l.

(** [int size() { return num_devices; }] *)
Definition size (l : t) : M Z := read_num_devices l.

(** [operator[](size_t i)]: [return *(_device_list[i]);] *)
Definition index (l : t) (i : nat) : M ibv_device :=
  adverbs.scoped_device_list.deref (_device_list l) i.

(** The loop of [lookup_by_name]:
    [for (int i = 0; i < num_devices; ++i)
       if (strncmp(_device_list[i]->name, name, IBV_SYSFS_NAME_MAX) == 0)
         return _device_list[i];]
    with [remaining = num_devices - i]. *)
Fixpoint lookup_by_name_loop (p : option (list ibv_device)) (name_ : string)
    (remaining i : nat) : M (option ibv_device) :=
  match remaining with
  | O => ret None
  | S r =>
      dev <- adverbs.scoped_device_list.deref p i;;
      if (strncmp (name dev) name_ (IBV_SYSFS_NAME_MAX drv) =? 0)%Z
      then ret (Some dev)
      else lookup_by_name_loop p name_ r (S i)
  end.

(** [lookup_by_name(const char *name)] *)
Definition lookup_by_name (l : t) (name_ : string) : M (option ibv_device) :=
  n <- read_num_devices l;;
  lookup_by_name_loop (_device_list l) name_ (Z.to_nat n) 0.

(** [lookup_by_kernel_index(int kernel_index)]:
    [for (auto dev : *this)
       if (ibv_get_device_index(dev) == kernel_index) return dev;
     return nullptr;]
    over [begin() = _device_list] to [end() = _device_list + num_devices]. *)
Definition lookup_by_kernel_index (l : t) (kernel_index : Z)
  : M (option ibv_device) :=
  n <- read_num_devices l;;
  if (n <? 0)%Z then undefined
  else adverbs.scoped_device_list.lookup_loop
         (λ dev, idx <- call_ibv_get_device_index drv dev;;
                 ret (idx =? kernel_index)%Z)
         (_device_list l) (Z.to_nat n) 0.

End with_driver.
End scoped_device_list.

(** Statements of a client of the earlier class: copies and destructions. *)
Inductive list_stmt :=
| CopyList (dst src : nat)           (* scoped_device_list dst = src; *)
| DestroyList (x : nat).             (* x's lifetime ends *)

Definition is_destroy (s : list_stmt) : bool :=
  match s with
  | DestroyList _ => true
  | CopyList _ _ => false
  end.

Definition list_step (drv : driver) (env : gmap nat scoped_device_list.t)
    (s : list_stmt) : M (gmap nat scoped_device_list.t) :=
  match s with
  | CopyList dst src =>
      match env !! src, env !! dst with
      | Some l, None =>
          l' <- scoped_device_list.copy l;; ret (<[dst := l']> env)
      | _, _ => undefined
      end
  | DestroyList x =>
      match env !! x with
      | Some l => _ <- scoped_device_list.dtor l;; ret (delete x env)
      | None => undefined
      end
  end.

Definition list_run (drv : driver) (prog : list list_stmt)
    (env : gmap nat scoped_device_list.t)
  : M (gmap nat scoped_device_list.t) :=
  client.run (list_step drv) prog env.

End earlier.

(** ** The first Python extension: device_names *)

Module adverbs_pyext.

(** [m.def("device_names", []() {
       adverbs::scoped_device_list device_list;
       std::vector<std::string> names;
       for (auto& dev : device_list) names.push_back(dev->name);
       return names; });]
    [push_back(dev->name)] makes a [std::string] of the buffer
    [name[IBV_SYSFS_NAME_MAX]]. *)
Definition device_names (drv : driver) : M (list string) :=
  scoped (adverbs.scoped_device_list.ctor drv)
         adverbs.scoped_device_list.dtor
    (λ device_list,
      adverbs.scoped_device_list.for_each device_list
        (λ dev, std_string (IBV_SYSFS_NAME_MAX drv) (name dev))).

End adverbs_pyext.

(** ** The Python binding of ibv_port_attr: expand_flags, expand_flags2 *)

Module port_flags.

(** The [enum ibv_port_cap_flags] constants of <infiniband/verbs.h> that the
    binding names; their values are the header's. *)
Record ibv_port_cap_flags := {
  IBV_PORT_SM : Z;
  IBV_PORT_NOTICE_SUP : Z;
  IBV_PORT_TRAP_SUP : Z;
  IBV_PORT_OPT_IPD_SUP : Z;
  IBV_PORT_AUTO_MIGR_SUP : Z;
  IBV_PORT_SL_MAP_SUP : Z;
  IBV_PORT_MKEY_NVRAM : Z;
  IBV_PORT_PKEY_NVRAM : Z;
  IBV_PORT_LED_INFO_SUP : Z;
  IBV_PORT_SYS_IMAGE_GUID_SUP : Z;
  IBV_PORT_PKEY_SW_EXT_PORT_TRAP_SUP : Z;
  IBV_PORT_EXTENDED_SPEEDS_SUP : Z;
  IBV_PORT_CM_SUP : Z;
  IBV_PORT_SNMP_TUNNEL_SUP : Z;
  IBV_PORT_REINIT_SUP : Z;
  IBV_PORT_DEVICE_MGMT_SUP : Z;
  IBV_PORT_VENDOR_CLASS_SUP : Z;
  IBV_PORT_DR_NOTICE_SUP : Z;
  IBV_PORT_CAP_MASK_NOTICE_SUP : Z;
  IBV_PORT_BOOT_MGMT_SUP : Z;
  IBV_PORT_LINK_LATENCY_SUP : Z;
  IBV_PORT_CLIENT_REG_SUP : Z;
  IBV_PORT_IP_BASED_GIDS : Z;
}.

(** The [enum ibv_port_cap_flags2] constants of the header. *)
Record ibv_port_cap_flags2 := {
  IBV_PORT_SET_NODE_DESC_SUP : Z;
  IBV_PORT_INFO_EXT_SUP : Z;
  IBV_PORT_VIRT_SUP : Z;
  IBV_PORT_SWITCH_PORT_STATE_TABLE_SUP : Z;
  IBV_PORT_LINK_WIDTH_2X_SUP : Z;
  IBV_PORT_LINK_SPEED_HDR_SUP : Z;
}.

(** [#define IBV_PORT_LINK_SPEED_NDR_SUP ((enum ibv_port_cap_flags2)(1 << 10))] *)
Definition IBV_PORT_LINK_SPEED_NDR_SUP : Z := Z.shiftl 1 10.

(** The two capability fields of [struct ibv_port_attr] that the lambdas
    read: [uint32_t port_cap_flags] and [uint16_t port_cap_flags2]. *)
Record caps := {
  port_cap_flags : Z;
  port_cap_flags2 : Z;
}.

(** [(unsigned int) f] for an [int] [f]: the conversion [uint32_t & int]
    makes. *)
Definition to_uint32_t (f : Z) : Z := (f mod 2 ^ 32)%Z.

(** [std::vector<int> fs = {...}] of [expand_flags], in the source's order. *)
Definition fs (v : ibv_port_cap_flags) : list Z :=
  [ IBV_PORT_SM v; IBV_PORT_NOTICE_SUP v; IBV_PORT_TRAP_SUP v;
    IBV_PORT_OPT_IPD_SUP v; IBV_PORT_AUTO_MIGR_SUP v; IBV_PORT_SL_MAP_SUP v;
    IBV_PORT_MKEY_NVRAM v; IBV_PORT_PKEY_NVRAM v; IBV_PORT_LED_INFO_SUP v;
    IBV_PORT_SYS_IMAGE_GUID_SUP v; IBV_PORT_PKEY_SW_EXT_PORT_TRAP_SUP v;
    IBV_PORT_EXTENDED_SPEEDS_SUP v; IBV_PORT_CM_SUP v;
    IBV_PORT_SNMP_TUNNEL_SUP v; IBV_PORT_REINIT_SUP v;
    IBV_PORT_DEVICE_MGMT_SUP v; IBV_PORT_VENDOR_CLASS_SUP v;
    IBV_PORT_DR_NOTICE_SUP v; IBV_PORT_CAP_MASK_NOTICE_SUP v;
    IBV_PORT_BOOT_MGMT_SUP v; IBV_PORT_LINK_LATENCY_SUP v;
    IBV_PORT_CLIENT_REG_SUP v; IBV_PORT_IP_BASED_GIDS v ].

(** [std::vector<int> fs = {...}] of [expand_flags2]. *)
Definition fs2 (v : ibv_port_cap_flags2) : list Z :=
  [ IBV_PORT_SET_NODE_DESC_SUP v; IBV_PORT_INFO_EXT_SUP v;
    IBV_PORT_VIRT_SUP v; IBV_PORT_SWITCH_PORT_STATE_TABLE_SUP v;
    IBV_PORT_LINK_WIDTH_2X_SUP v; IBV_PORT_LINK_SPEED_HDR_SUP v;
    IBV_PORT_LINK_SPEED_NDR_SUP ].

(** The loop of [expand_flags]:
    [for (int f : fs) if (attr.port_cap_flags & f) flagset.push_back(f);] *)
Fixpoint expand_flags_loop (port_cap_flags_ : Z) (fs_ : list Z)
    (flagset : list Z) : list Z :=
  match fs_ with
  | [] => flagset
  | f :: rest =>
      expand_flags_loop port_cap_flags_ rest
        (if (Z.land port_cap_flags_ (to_uint32_t f) =? 0)%Z then flagset
         else flagset ++ [f])
  end.

(** ["expand_flags"] *)
Definition expand_flags (v : ibv_port_cap_flags) (attr : caps) : list Z :=
  expand_flags_loop (port_cap_flags attr) (fs v) [].

(** The loop of [expand_flags2]:
    [for (int f : fs) if (attr.port_cap_flags2 & f) flagset.push_back(f);]
    where the [uint16_t] field is promoted to [int]. *)
Fixpoint expand_flags2_loop (port_cap_flags2_ : Z) (fs_ : list Z)
    (flagset : list Z) : list Z :=
  match fs_ with
  | [] => flagset
  | f :: rest =>
      expand_flags2_loop port_cap_flags2_ rest
        (if (Z.land port_cap_flags2_ f =? 0)%Z then flagset
         else flagset ++ [f])
  end.

(** ["expand_flags2"] *)
Definition expand_flags2 (v : ibv_port_cap_flags2) (attr : caps) : list Z :=
  expand_flags2_loop (port_cap_flags2 attr) (fs2 v) [].

(** The values <infiniband/verbs.h> gives the constants. *)
Definition header_flags : ibv_port_cap_flags :=
  {| IBV_PORT_SM := Z.shiftl 1 1;
     IBV_PORT_NOTICE_SUP := Z.shiftl 1 2;
     IBV_PORT_TRAP_SUP := Z.shiftl 1 3;
     IBV_PORT_OPT_IPD_SUP := Z.shiftl 1 4;
     IBV_PORT_AUTO_MIGR_SUP := Z.shiftl 1 5;
     IBV_PORT_SL_MAP_SUP := Z.shiftl 1 6;
     IBV_PORT_MKEY_NVRAM := Z.shiftl 1 7;
     IBV_PORT_PKEY_NVRAM := Z.shiftl 1 8;
     IBV_PORT_LED_INFO_SUP := Z.shiftl 1 9;
     IBV_PORT_SYS_IMAGE_GUID_SUP := Z.shiftl 1 11;
     IBV_PORT_PKEY_SW_EXT_PORT_TRAP_SUP := Z.shiftl 1 12;
     IBV_PORT_EXTENDED_SPEEDS_SUP := Z.shiftl 1 14;
     IBV_PORT_CM_SUP := Z.shiftl 1 16;
     IBV_PORT_SNMP_TUNNEL_SUP := Z.shiftl 1 17;
     IBV_PORT_REINIT_SUP := Z.shiftl 1 18;
     IBV_PORT_DEVICE_MGMT_SUP := Z.shiftl 1 19;
     IBV_PORT_VENDOR_CLASS_SUP := Z.shiftl 1 20;
     IBV_PORT_DR_NOTICE_SUP := Z.shiftl 1 21;
     IBV_PORT_CAP_MASK_NOTICE_SUP := Z.shiftl 1 22;
     IBV_PORT_BOOT_MGMT_SUP := Z.shiftl 1 23;
     IBV_PORT_LINK_LATENCY_SUP := Z.shiftl 1 24;
     IBV_PORT_CLIENT_REG_SUP := Z.shiftl 1 25;
     IBV_PORT_IP_BASED_GIDS := Z.shiftl 1 26 |}.

Definition header_flags2 : ibv_port_cap_flags2 :=
  {| IBV_PORT_SET_NODE_DESC_SUP := Z.shiftl 1 0;
     IBV_PORT_INFO_EXT_SUP := Z.shiftl 1 1;
     IBV_PORT_VIRT_SUP := Z.shiftl 1 2;
     IBV_PORT_SWITCH_PORT_STATE_TABLE_SUP := Z.shiftl 1 3;
     IBV_PORT_LINK_WIDTH_2X_SUP := Z.shiftl 1 4;
     IBV_PORT_LINK_SPEED_HDR_SUP := Z.shiftl 1 5 |}.

End port_flags.

(** ** More vocabulary *)

Module spec_more.

(** The calls [C dev] a scan makes for the first [j] entries. *)
Definition answer_calls (C : ibv_device → call) (entries : list ibv_device)
    (j : nat) : list call :=
  map C (take j entries).

(** What a primitive [answer], logged as [C], reports for entry [j] when a
    scan that started after the calls [h] reaches it. *)
Definition reported (C : ibv_device → call)
    (answer : list call → ibv_device → Z) (h : list call)
    (entries : list ibv_device) (j : nat) : option Z :=
  match entries !! j with
  | Some dev => Some (answer (h ++ answer_calls C entries j) dev)
  | None => None
  end.

(** The GUID the driver reports for entry [j] of a scan by GUID. *)
Definition reported_guid (drv : driver) :=
  reported Call_ibv_get_device_guid (ibv_get_device_guid drv).

(** A [char[bound]] buffer that holds a C string: a NUL is among its
    [bound] characters. *)
Definition terminated (bound : nat) (buf : string) : Prop :=
  String.length (c_prefix bound buf) < bound.

(** An entry whose four string buffers hold C strings. *)
Definition terminated_entry (drv : driver) (dev : ibv_device) : Prop :=
  terminated (IBV_SYSFS_NAME_MAX drv) (name dev) ∧
  terminated (IBV_SYSFS_NAME_MAX drv) (dev_name dev) ∧
  terminated IBV_SYSFS_PATH_MAX (dev_path dev) ∧
  terminated IBV_SYSFS_PATH_MAX (ibdev_path dev).

(** The proxy that [IBDeviceProxy(dev)] makes after the calls [h] of an
    entry whose buffers hold C strings: the index and the GUID are asked of
    the driver, in this order, and each string is the C string of its
    buffer. *)
Definition snapshot (drv : driver) (h : list call) (dev : ibv_device)
  : py_adverbs.IBDeviceProxy.t :=
  {| py_adverbs.IBDeviceProxy.kernel_index := ibv_get_device_index drv h dev;
     py_adverbs.IBDeviceProxy.guid :=
       ibv_get_device_guid drv (h ++ [Call_ibv_get_device_index dev]) dev;
     py_adverbs.IBDeviceProxy.node_type := node_type dev;
     py_adverbs.IBDeviceProxy.name :=
       c_prefix (IBV_SYSFS_NAME_MAX drv) (name dev);
     py_adverbs.IBDeviceProxy.dev_name :=
       c_prefix (IBV_SYSFS_NAME_MAX drv) (dev_name dev);
     py_adverbs.IBDeviceProxy.dev_path :=
       c_prefix IBV_SYSFS_PATH_MAX (dev_path dev);
     py_adverbs.IBDeviceProxy.ibdev_path :=
       c_prefix IBV_SYSFS_PATH_MAX (ibdev_path dev) |}.

(** The calls [list_devices] makes for the first [j] entries. *)
Definition snapshot_calls (entries : list ibv_device) (j : nat) : list call :=
  concat (map (λ dev, [Call_ibv_get_device_index dev;
                       Call_ibv_get_device_guid dev])
              (take j entries)).

(** A string without a NUL character in it. *)
Fixpoint nul_free (s : string) : bool :=
  match s with
  | EmptyString => true
  | String c r => negb (Ascii.eqb c zero) && nul_free r
  end.

(** A driver that sees the same adapters with the same indexes whatever
    happened before. *)
Definition stable (drv : driver) (devs : list ibv_device)
    (index_of : ibv_device → Z) : Prop :=
  (∀ h, ibv_get_device_list drv h = Some devs) ∧
  (∀ h dev, ibv_get_device_index drv h dev = index_of dev).

(** A flag that is one bit of an [int]. *)
Definition single_bit (f : Z) : Prop :=
  ∃ k, (0 ≤ k < 31)%Z ∧ f = (2 ^ k)%Z.

(** The flags of a list, or-ed together. *)
Definition or_all (flags : list Z) : Z := fold_right Z.lor 0%Z flags.

(** The number of destructions in a program of the earlier client. *)
Definition destructions (prog : list earlier.list_stmt) : nat :=
  length (List.filter earlier.is_destroy prog).

End spec_more.
Export spec_more.

(** * Theorems *)

Import adverbs.

(** ** The constructors, step by step *)

Lemma scoped_device_list_ctor_eq (drv : driver) (w : world) :
  scoped_device_list.ctor drv w =
    (Ret {| scoped_device_list._size :=
              match ibv_get_device_list drv (trace w) with
              | Some devs => Z.of_nat (length devs)
              | None => 0%Z
              end;
            scoped_device_list._device_list :=
              {| sp_get := ibv_get_device_list drv (trace w);
                 sp_block := next_block w |} |},
     {| blocks :=
          <[next_block w :=
              {| cb_deleter :=
                   Call_ibv_free_device_list
                     (ibv_get_device_list drv (trace w));
                 use_count := 1 |}]> (blocks w);
        next_block := S (next_block w);
        trace := trace w ++ [Call_ibv_get_device_list] |}).
Proof. reflexivity. Qed.

Lemma context_handle_ctor_eq (drv : driver) (dev : ibv_device) (w : world) :
  context_handle.ctor drv dev w =
    (Ret {| context_handle._context :=
              {| sp_get := ibv_open_device drv (trace w) dev;
                 sp_block := next_block w |} |},
     {| blocks :=
          <[next_block w :=
              {| cb_deleter :=
                   Call_ibv_close_device (ibv_open_device drv (trace w) dev);
                 use_count := 1 |}]> (blocks w);
        next_block := S (next_block w);
        trace := trace w ++ [Call_ibv_open_device dev] |}).
Proof. reflexivity. Qed.

(** A directory the constructor built holds the enumeration result, and its
    [_size] is the number of entries. *)
Lemma scoped_device_list_ctor_fields drv w0 l w1 :
  scoped_device_list.ctor drv w0 = (Ret l, w1) →
  scoped_device_list.get l = ibv_get_device_list drv (trace w0) ∧
  scoped_device_list._size l =
    Z.of_nat (length (entries_of (ibv_get_device_list drv (trace w0)))).
Proof.
  rewrite scoped_device_list_ctor_eq. intros [= <- _].
  unfold scoped_device_list.get; simpl.
  split; [done|]. by destruct (ibv_get_device_list drv (trace w0)).
Qed.

(** ** Scans of the device array *)

Lemma deref_in_range (arr : list ibv_device) i dev w :
  arr !! i = Some dev →
  scoped_device_list.deref (Some arr) i w = (Ret dev, w).
Proof. intros H. unfold scoped_device_list.deref. by rewrite H. Qed.

Lemma deref_out_of_range (arr : list ibv_device) i w :
  length arr ≤ i →
  scoped_device_list.deref (Some arr) i w = (Undef, w).
Proof.
  intros H. unfold scoped_device_list.deref.
  by rewrite (proj2 (lookup_ge_None arr i) H).
Qed.

(** ** Opening a context (C3) *)

(** C3, as the code has it: for every device and every state, constructing
    a [context_handle] calls [ibv_open_device] once and always returns a
    handle: one whose [get()] is whatever the primitive returned, owned by a
    fresh control block with one owner whose deleter is [ibv_close_device] on
    that pointer.  When the primitive fails (returns NULL) the handle holds
    the null pointer; nothing is thrown. *)
Theorem context_handle_ctor_never_fails (drv : driver) (dev : ibv_device)
    (w : world) :
  ∃ h w',
    context_handle.ctor drv dev w = (Ret h, w') ∧
    context_handle.get h = ibv_open_device drv (trace w) dev ∧
    trace w' = trace w ++ [Call_ibv_open_device dev] ∧
    blocks w' !! sp_block (context_handle._context h) =
      Some {| cb_deleter := Call_ibv_close_device (context_handle.get h);
              use_count := 1 |} ∧
    (∀ e w'', context_handle.ctor drv dev w ≠ (Throw e, w'')).
Proof.
  rewrite context_handle_ctor_eq. eexists _, _. split; [reflexivity|].
  unfold context_handle.get; simpl.
  split_and!; [done | done | apply lookup_insert_eq | congruence].
Qed.

(** C3 as the spec words it fails on the mock whose [ibv_open_device]
    returns NULL: the primitive reports the error, yet the constructor does
    not throw. *)
Lemma context_handle_ctor_open_failure_not_thrown :
  ¬ (ibv_open_device mock.no_open (trace mock.start) mock.mlx5_0 = None →
     ∃ e w',
       context_handle.ctor mock.no_open mock.mlx5_0 mock.start = (Throw e, w')).
Proof.
  intros H. destruct (H eq_refl) as (e & w' & Hthrow).
  rewrite context_handle_ctor_eq in Hthrow. discriminate Hthrow.
Qed.

(** What is handed back there is a handle on the null pointer. *)
Example context_handle_ctor_null_resource :
  ∃ h w',
    context_handle.ctor mock.no_open mock.mlx5_0 mock.start = (Ret h, w') ∧
    context_handle.get h = None.
Proof. eexists _, _. split; reflexivity. Qed.

(** Destroying it calls [ibv_close_device] on NULL. *)
Example context_handle_dtor_after_failure :
  trace (snd ((h <- context_handle.ctor mock.no_open mock.mlx5_0;;
               context_handle.dtor h) mock.start))
  = [Call_ibv_open_device mock.mlx5_0; Call_ibv_close_device None].
Proof. reflexivity. Qed.

(** ** Enumeration failure (C4) *)

(** C4, as the code has it: when [ibv_get_device_list] fails, the
    constructor still returns a directory, in a defined empty state:
    [size()] is 0, a range-for runs no body, every lookup gives nullptr.
    Nothing is thrown; the failure shows only as [get()] being null. *)
Theorem scoped_device_list_ctor_failure_is_empty (drv : driver) (w : world) :
  ibv_get_device_list drv (trace w) = None →
  ∃ l w',
    scoped_device_list.ctor drv w = (Ret l, w') ∧
    trace w' = trace w ++ [Call_ibv_get_device_list] ∧
    scoped_device_list.get l = None ∧
    scoped_device_list.size l = 0%Z ∧
    (∀ A (f : ibv_device → M A) w2,
       scoped_device_list.for_each l f w2 = (Ret [], w2)) ∧
    (∀ predicate w2,
       scoped_device_list.lookup_by_predicate l predicate w2 = (Ret None, w2)) ∧
    (∀ e w'', scoped_device_list.ctor drv w ≠ (Throw e, w'')).
Proof.
  intros Hfail. rewrite scoped_device_list_ctor_eq, Hfail.
  eexists _, _. split; [reflexivity|]. simpl.
  split_and!; done.
Qed.

Lemma scoped_device_list_ctor_failure_is_empty_witness :
  ibv_get_device_list mock.no_enumeration (trace mock.start) = None ∧
  ∃ l w',
    scoped_device_list.ctor mock.no_enumeration mock.start = (Ret l, w') ∧
    trace w' = trace mock.start ++ [Call_ibv_get_device_list] ∧
    scoped_device_list.get l = None ∧
    scoped_device_list.size l = 0%Z ∧
    (∀ A (f : ibv_device → M A) w2,
       scoped_device_list.for_each l f w2 = (Ret [], w2)) ∧
    (∀ predicate w2,
       scoped_device_list.lookup_by_predicate l predicate w2 = (Ret None, w2)) ∧
    (∀ e w'',
       scoped_device_list.ctor mock.no_enumeration mock.start ≠ (Throw e, w'')).
Proof.
  split; [reflexivity|].
  apply (scoped_device_list_ctor_failure_is_empty mock.no_enumeration mock.start).
  reflexivity.
Defined.

(** C4 as the spec words it fails on the mock whose enumeration fails: no
    failure condition reaches the caller of the constructor. *)
Lemma scoped_device_list_ctor_failure_not_thrown :
  ¬ (ibv_get_device_list mock.no_enumeration (trace mock.start) = None →
     ∃ e w',
       scoped_device_list.ctor mock.no_enumeration mock.start = (Throw e, w')).
Proof.
  intros H. destruct (H eq_refl) as (e & w' & Hthrow).
  rewrite scoped_device_list_ctor_eq in Hthrow. discriminate Hthrow.
Qed.

(** Destroying that empty directory still runs the deleter: the
    [shared_ptr] owns the null pointer, so [ibv_free_device_list] is called
    on NULL. *)
Example scoped_device_list_dtor_after_failure :
  trace (snd ((l <- scoped_device_list.ctor mock.no_enumeration;;
               scoped_device_list.dtor l) mock.start))
  = [Call_ibv_get_device_list; Call_ibv_free_device_list None].
Proof. reflexivity. Qed.

(** ** Indexed access (C5) *)

Lemma to_size_t_small (z : Z) :
  (0 ≤ z < 2 ^ 64)%Z → to_size_t z = z.
Proof. intros H. unfold to_size_t. by apply Z.mod_small. Qed.

Lemma to_size_t_le (z : Z) : (0 ≤ z)%Z → (to_size_t z ≤ z)%Z.
Proof. intros H. unfold to_size_t. apply Z.mod_le; lia. Qed.

(** C5, as the code has it: [operator[]] makes no bounds check.  For a
    directory the constructor built, [i < size()] gives entry [i] of the
    enumeration; no index makes it throw; and for [i >= size()] (the count
    fitting a [size_t]) the access reads outside the array, which is
    undefined behaviour, not an error. *)
Theorem scoped_device_list_index_unchecked (drv : driver) (w0 : world)
    (l : scoped_device_list.t) (w1 : world) (i : nat) (w : world) :
  scoped_device_list.ctor drv w0 = (Ret l, w1) →
  let entries := entries_of (ibv_get_device_list drv (trace w0)) in
  ((Z.of_nat i < scoped_device_list.size l)%Z →
     ∃ dev, entries !! i = Some dev ∧
            scoped_device_list.index l i w = (Ret dev, w)) ∧
  (∀ e w', scoped_device_list.index l i w ≠ (Throw e, w')) ∧
  ((scoped_device_list.size l ≤ Z.of_nat i)%Z →
     (Z.of_nat (length entries) < 2 ^ 64)%Z →
     scoped_device_list.index l i w = (Undef, w)).
Proof.
  intros Hctor entries.
  destruct (scoped_device_list_ctor_fields _ _ _ _ Hctor) as [Hget Hsize].
  unfold scoped_device_list.index, scoped_device_list.size.
  rewrite Hget, Hsize. fold entries.
  assert (Hle : (to_size_t (Z.of_nat (length entries))
                 ≤ Z.of_nat (length entries))%Z)
    by (apply to_size_t_le; lia).
  split; [|split].
  - intros Hi.
    destruct (lookup_lt_is_Some_2 entries i) as [dev Hdev]; [lia|].
    exists dev. split; [done|].
    subst entries. destruct (ibv_get_device_list drv (trace w0)) as [arr|].
    + by apply deref_in_range.
    + simpl in Hdev. by rewrite lookup_nil in Hdev.
  - intros e w'. unfold scoped_device_list.deref.
    destruct (ibv_get_device_list drv (trace w0)) as [arr|]; [|done].
    by destruct (arr !! i).
  - intros Hi Hfit. rewrite to_size_t_small in Hi by lia.
    subst entries. destruct (ibv_get_device_list drv (trace w0)) as [arr|].
    + apply deref_out_of_range. simpl in Hi. lia.
    + reflexivity.
Qed.

Lemma scoped_device_list_index_unchecked_witness :
  scoped_device_list.ctor mock.healthy mock.start
    = (Ret mock.the_list, snd (scoped_device_list.ctor mock.healthy mock.start)) ∧
  scoped_device_list.index mock.the_list 1 mock.start
    = (Ret mock.mlx5_1, mock.start) ∧
  scoped_device_list.index mock.the_list 2 mock.start = (Undef, mock.start).
Proof.
  assert (Hctor : scoped_device_list.ctor mock.healthy mock.start
    = (Ret mock.the_list,
       snd (scoped_device_list.ctor mock.healthy mock.start)))
    by reflexivity.
  split; [exact Hctor|]. split.
  - destruct (scoped_device_list_index_unchecked mock.healthy mock.start
                mock.the_list _ 1 mock.start Hctor) as [Hin _].
    destruct Hin as (dev & Hdev & Hidx); [vm_compute; reflexivity|].
    simpl in Hdev. injection Hdev as <-. exact Hidx.
  - destruct (scoped_device_list_index_unchecked mock.healthy mock.start
                mock.the_list _ 2 mock.start Hctor) as (_ & _ & Hout).
    apply Hout; vm_compute; [congruence | reflexivity].
Defined.

(** C5 as the spec words it fails on the two-entry mock directory at index
    2: the access is out of range and yet raises no error. *)
Lemma scoped_device_list_index_no_range_error :
  ¬ (∀ l w1,
       scoped_device_list.ctor mock.healthy mock.start = (Ret l, w1) →
       (scoped_device_list.size l ≤ 2)%Z →
       ∃ e w', scoped_device_list.index l 2 w1 = (Throw e, w')).
Proof.
  intros H.
  destruct (H mock.the_list _ eq_refl) as (e & w' & Hthrow).
  - vm_compute. congruence.
  - vm_compute in Hthrow. discriminate Hthrow.
Qed.

(** ** Bounded string comparison *)

Lemma uchar_inj (c1 c2 : ascii) : uchar c1 = uchar c2 → c1 = c2.
Proof.
  unfold uchar. intros H. apply Nat2Z.inj in H.
  rewrite <- (ascii_nat_embedding c1), <- (ascii_nat_embedding c2).
  by rewrite H.
Qed.

Lemma uchar_zero_iff (c : ascii) : uchar c = 0%Z ↔ c = zero.
Proof.
  split; [|by intros ->].
  intros H. apply uchar_inj. by rewrite H.
Qed.

(** [strncmp] gives 0 exactly when the two strings agree on the characters
    within the bound. *)
Lemma strncmp_zero_iff (n : nat) (s1 s2 : string) :
  strncmp s1 s2 n = 0%Z ↔ c_prefix n s1 = c_prefix n s2.
Proof.
  revert s1 s2. induction n as [|n IH]; intros s1 s2; [by destruct s1, s2|].
  destruct s1 as [|c1 r1], s2 as [|c2 r2]; simpl.
  - done.
  - destruct (Ascii.eqb_spec c2 zero) as [->|Hne]; [done|].
    split; [|done]. intros H. destruct Hne. apply uchar_zero_iff. lia.
  - destruct (Ascii.eqb_spec c1 zero) as [->|Hne]; [done|].
    split; [|done]. intros H. destruct Hne. apply uchar_zero_iff. lia.
  - destruct (Ascii.eqb_spec c1 c2) as [->|Hne].
    + destruct (Ascii.eqb_spec c2 zero) as [->|Hnz]; [done|].
      rewrite IH. split; [by intros ->|by intros [= ->]].
    + split.
      * intros H. destruct Hne. apply uchar_inj. lia.
      * intros H. destruct Hne.
        destruct (Ascii.eqb_spec c1 zero) as [->|H1],
                 (Ascii.eqb_spec c2 zero) as [->|H2]; congruence.
Qed.

(** The comparison is bounded: what lies beyond the bound is not looked at. *)
Example strncmp_ignores_the_tail :
  strncmp "mlx5_0_port_a" "mlx5_0_port_b" 12 = 0%Z ∧
  strncmp "mlx5_0_port_a" "mlx5_0_port_b" 13 ≠ 0%Z.
Proof. split; vm_compute; congruence. Qed.

(** ** lookup_by_name (C6) *)

(** The scan with a predicate that makes no call: it returns the first
    entry from [i] on that satisfies it, and changes nothing. *)
Lemma lookup_loop_pure (f : ibv_device → bool) (arr : list ibv_device)
    (remaining i : nat) (w : world) :
  i + remaining = length arr →
  ∃ r,
    scoped_device_list.lookup_loop (λ dev, ret (f dev)) (Some arr)
      remaining i w = (Ret r, w) ∧
    match r with
    | Some dev =>
        ∃ k, i ≤ k ∧ arr !! k = Some dev ∧ f dev = true ∧
             ∀ j d, i ≤ j < k → arr !! j = Some d → f d = false
    | None => ∀ j d, i ≤ j → arr !! j = Some d → f d = false
    end.
Proof.
  revert i. induction remaining as [|r IH]; intros i Hlen.
  - exists None. split; [done|].
    intros j d Hj Hd. apply lookup_lt_Some in Hd. lia.
  - destruct (lookup_lt_is_Some_2 arr i) as [dev Hdev]; [lia|].
    simpl. unfold bind at 1. rewrite (deref_in_range _ _ _ _ Hdev).
    unfold bind, ret. destruct (f dev) eqn:Hf.
    + exists (Some dev). split; [done|].
      exists i. split_and!; [lia | done | done | intros; lia].
    + destruct (IH (S i)) as (res & Hres & Hspec); [lia|].
      exists res. split; [exact Hres|].
      destruct res as [dev'|].
      * destruct Hspec as (k & Hk & Hdev' & Hf' & Hbefore).
        exists k. split_and!; [lia | done | done |].
        intros j d Hj Hd. destruct (decide (j = i)) as [->|Hne].
        -- congruence.
        -- apply (Hbefore j d); [lia | done].
      * intros j d Hj Hd. destruct (decide (j = i)) as [->|Hne].
        -- congruence.
        -- apply (Hspec j d); [lia | done].
Qed.

(** C6: on every directory the constructor built, [lookup_by_name(name)]
    scans the entries in enumeration order comparing names with [strncmp]
    bounded by [IBV_SYSFS_NAME_MAX], that is on the characters within the
    bound.  It returns the first entry that matches; when none does it
    returns nullptr.  It never throws, makes no driver call and changes no
    state. *)
Theorem lookup_by_name_first_bounded_match (drv : driver) (w0 : world)
    (l : scoped_device_list.t) (w1 : world) (name_ : string) (w : world) :
  scoped_device_list.ctor drv w0 = (Ret l, w1) →
  let entries := entries_of (ibv_get_device_list drv (trace w0)) in
  let matches (dev : ibv_device) :=
    c_prefix (IBV_SYSFS_NAME_MAX drv) (name dev)
      = c_prefix (IBV_SYSFS_NAME_MAX drv) name_ in
  ∃ r,
    scoped_device_list.lookup_by_name drv l name_ w = (Ret r, w) ∧
    match r with
    | Some dev =>
        ∃ k, entries !! k = Some dev ∧ matches dev ∧
             ∀ j d, j < k → entries !! j = Some d → ¬ matches d
    | None => ∀ j d, entries !! j = Some d → ¬ matches d
    end.
Proof.
  intros Hctor entries matches.
  destruct (scoped_device_list_ctor_fields _ _ _ _ Hctor) as [Hget Hsize].
  unfold scoped_device_list.lookup_by_name,
    scoped_device_list.lookup_by_predicate.
  rewrite Hget, Hsize. fold entries.
  destruct (Z.ltb_spec (Z.of_nat (length entries)) 0) as [Hneg|_]; [lia|].
  rewrite Nat2Z.id.
  assert (Hmatch : ∀ d,
    (strncmp (name d) name_ (IBV_SYSFS_NAME_MAX drv) =? 0)%Z = false →
    ¬ matches d).
  { intros d Hd Hm. apply strncmp_zero_iff in Hm.
    apply Z.eqb_neq in Hd. by destruct Hd. }
  subst entries.
  destruct (ibv_get_device_list drv (trace w0)) as [arr|]; simpl.
  - destruct (lookup_loop_pure
      (λ dev, (strncmp (name dev) name_ (IBV_SYSFS_NAME_MAX drv) =? 0)%Z)
      arr (length arr) 0 w) as (r & Hr & Hspec); [done|].
    exists r. split; [exact Hr|].
    destruct r as [dev|].
    + destruct Hspec as (k & _ & Hdev & Hf & Hbefore).
      exists k. split_and!; [done| |].
      * apply strncmp_zero_iff. by apply Z.eqb_eq.
      * intros j d Hj Hd. apply Hmatch, (Hbefore j d); [lia | done].
    + intros j d Hd. apply Hmatch, (Hspec j d); [lia | done].
  - exists None. split; [done|]. intros j d Hd. by rewrite lookup_nil in Hd.
Qed.

Lemma lookup_by_name_first_bounded_match_witness :
  scoped_device_list.lookup_by_name mock.healthy mock.the_list "mlx5_1"
    mock.start = (Ret (Some mock.mlx5_1), mock.start) ∧
  scoped_device_list.lookup_by_name mock.healthy mock.the_list "mlx5_2"
    mock.start = (Ret None, mock.start).
Proof.
  assert (Hctor : scoped_device_list.ctor mock.healthy mock.start
    = (Ret mock.the_list,
       snd (scoped_device_list.ctor mock.healthy mock.start)))
    by reflexivity.
  split.
  - destruct (lookup_by_name_first_bounded_match mock.healthy mock.start
                mock.the_list _ "mlx5_1" mock.start Hctor) as (r & Hr & _).
    rewrite Hr. vm_compute in Hr. injection Hr as <-. reflexivity.
  - destruct (lookup_by_name_first_bounded_match mock.healthy mock.start
                mock.the_list _ "mlx5_2" mock.start Hctor) as (r & Hr & _).
    rewrite Hr. vm_compute in Hr. injection Hr as <-. reflexivity.
Defined.

(** ** lookup_by_kernel_index (C7) *)

Lemma index_calls_S (arr : list ibv_device) (i : nat) (dev : ibv_device) :
  arr !! i = Some dev →
  index_calls arr (S i) = index_calls arr i ++ [Call_ibv_get_device_index dev].
Proof.
  intros H. unfold index_calls.
  by rewrite (take_S_r _ _ _ H), map_app.
Qed.

(** The scan that asks the driver for the index of each entry it reaches:
    it stops at the first entry whose reported index is [idx], having asked
    once for every entry up to it. *)
Lemma lookup_loop_kernel_index (drv : driver) (idx : Z) (h0 : list call)
    (arr : list ibv_device) (remaining i : nat) (w : world) :
  i + remaining = length arr →
  trace w = h0 ++ index_calls arr i →
  ∃ r w',
    scoped_device_list.lookup_loop
      (λ dev, x <- call_ibv_get_device_index drv dev;; ret (x =? idx)%Z)
      (Some arr) remaining i w = (Ret r, w') ∧
    blocks w' = blocks w ∧ next_block w' = next_block w ∧
    match r with
    | Some dev =>
        ∃ k, i ≤ k ∧ arr !! k = Some dev ∧
             reported_index drv h0 arr k = Some idx ∧
             (∀ j, i ≤ j < k → reported_index drv h0 arr j ≠ Some idx) ∧
             trace w' = h0 ++ index_calls arr (S k)
    | None =>
        (∀ j, i ≤ j → reported_index drv h0 arr j ≠ Some idx) ∧
        trace w' = h0 ++ index_calls arr (length arr)
    end.
Proof.
  revert i w. induction remaining as [|r IH]; intros i w Hlen Htrace.
  - exists None, w. split_and!; try done.
    + intros j Hj. unfold reported_index.
      by rewrite (proj2 (lookup_ge_None arr j)) by lia.
    + by replace (length arr) with i by lia.
  - destruct (lookup_lt_is_Some_2 arr i) as [dev Hdev]; [lia|].
    assert (Hrep : reported_index drv h0 arr i
                   = Some (ibv_get_device_index drv (trace w) dev)).
    { unfold reported_index. by rewrite Hdev, Htrace. }
    simpl. unfold bind at 1. rewrite (deref_in_range _ _ _ _ Hdev).
    unfold call_ibv_get_device_index, bind, history, log, ret; simpl.
    destruct (Z.eqb_spec (ibv_get_device_index drv (trace w) dev) idx)
      as [Heq|Hne].
    + eexists (Some dev), _. split; [reflexivity|]. simpl.
      split_and!; try done.
      exists i. split_and!; [lia | done | by rewrite Hrep, Heq | intros; lia |].
      by rewrite Htrace, (index_calls_S _ _ _ Hdev), <- app_assoc.
    + edestruct (IH (S i)) as (res & w' & Hres & Hb & Hn & Hspec);
        [lia | | eexists res, w'; split; [exact Hres|]].
      { simpl. by rewrite Htrace, (index_calls_S _ _ _ Hdev), <- app_assoc. }
      simpl in Hb, Hn. split_and!; try done.
      destruct res as [dev'|].
      * destruct Hspec as (k & Hk & Hdev' & Hidx & Hbefore & Htr).
        exists k. split_and!; [lia | done | done | | done].
        intros j Hj. destruct (decide (j = i)) as [->|Hji].
        -- rewrite Hrep. congruence.
        -- apply Hbefore. lia.
      * destruct Hspec as [Hnone Htr]. split; [|done].
        intros j Hj. destruct (decide (j = i)) as [->|Hji].
        -- rewrite Hrep. congruence.
        -- apply Hnone. lia.
Qed.

(** [lookup_by_kernel_index] on a directory the constructor built, in terms
    of the entries of the enumeration. *)
Lemma lookup_by_kernel_index_scan (drv : driver) (w0 : world)
    (l : scoped_device_list.t) (w1 : world) (idx : Z) (w : world) :
  scoped_device_list.ctor drv w0 = (Ret l, w1) →
  let entries := entries_of (ibv_get_device_list drv (trace w0)) in
  ∃ r w',
    scoped_device_list.lookup_by_kernel_index drv l idx w = (Ret r, w') ∧
    blocks w' = blocks w ∧ next_block w' = next_block w ∧
    match r with
    | Some dev =>
        ∃ k, entries !! k = Some dev ∧
             reported_index drv (trace w) entries k = Some idx ∧
             (∀ j, j < k → reported_index drv (trace w) entries j ≠ Some idx) ∧
             trace w' = trace w ++ index_calls entries (S k)
    | None =>
        (∀ j, reported_index drv (trace w) entries j ≠ Some idx) ∧
        trace w' = trace w ++ index_calls entries (length entries)
    end.
Proof.
  intros Hctor entries.
  destruct (scoped_device_list_ctor_fields _ _ _ _ Hctor) as [Hget Hsize].
  unfold scoped_device_list.lookup_by_kernel_index,
    scoped_device_list.lookup_by_predicate.
  rewrite Hget, Hsize. fold entries.
  destruct (Z.ltb_spec (Z.of_nat (length entries)) 0) as [Hneg|_]; [lia|].
  rewrite Nat2Z.id. subst entries.
  destruct (ibv_get_device_list drv (trace w0)) as [arr|]; simpl.
  - destruct (lookup_loop_kernel_index drv idx (trace w) arr (length arr) 0 w)
      as (r & w' & Hr & Hb & Hn & Hspec); [done | by rewrite app_nil_r |].
    exists r, w'. split_and!; try done.
    destruct r as [dev|].
    + destruct Hspec as (k & _ & Hdev & Hidx & Hbefore & Htr).
      exists k. split_and!; try done. intros j Hj. apply Hbefore. lia.
    + destruct Hspec as [Hnone Htr]. split; [|done].
      intros j. apply Hnone. lia.
  - exists None, w. split_and!; try done. by rewrite app_nil_r.
Qed.

(** C7, as the code has it: on every directory the constructor built,
    [lookup_by_kernel_index(idx)] scans the entries in enumeration order,
    asks the driver afresh for the index of each entry it reaches (one
    [ibv_get_device_index] call per entry scanned), and returns the first
    entry whose reported index equals [idx], or nullptr when none does; it
    never throws.  For [idx] other than -1, the value the driver reports
    where index resolution is unsupported, an entry without index support is
    never returned, and a directory none of whose entries has index support
    gives nullptr. *)
Theorem lookup_by_kernel_index_first_reported_match (drv : driver)
    (w0 : world) (l : scoped_device_list.t) (w1 : world) (idx : Z)
    (w : world) :
  scoped_device_list.ctor drv w0 = (Ret l, w1) →
  let entries := entries_of (ibv_get_device_list drv (trace w0)) in
  ∃ r w',
    scoped_device_list.lookup_by_kernel_index drv l idx w = (Ret r, w') ∧
    blocks w' = blocks w ∧
    match r with
    | Some dev =>
        ∃ k, entries !! k = Some dev ∧
             reported_index drv (trace w) entries k = Some idx ∧
             (∀ j, j < k → reported_index drv (trace w) entries j ≠ Some idx) ∧
             trace w' = trace w ++ index_calls entries (S k) ∧
             (idx ≠ index_unsupported →
              reported_index drv (trace w) entries k
                ≠ Some index_unsupported)
    | None =>
        (∀ j, reported_index drv (trace w) entries j ≠ Some idx) ∧
        trace w' = trace w ++ index_calls entries (length entries)
    end ∧
    (idx ≠ index_unsupported →
     (∀ j, j < length entries →
           reported_index drv (trace w) entries j = Some index_unsupported) →
     r = None).
Proof.
  intros Hctor entries.
  destruct (lookup_by_kernel_index_scan drv w0 l w1 idx w Hctor)
    as (r & w' & Hr & Hb & _ & Hspec).
  exists r, w'. split_and!; try done.
  - destruct r as [dev|]; [|exact Hspec].
    destruct Hspec as (k & Hdev & Hidx & Hbefore & Htr).
    exists k. split_and!; try done.
    intros Hne Hk. subst entries. rewrite Hidx in Hk. congruence.
  - intros Hne Hall. destruct r as [dev|]; [|done].
    destruct Hspec as (k & Hdev & Hidx & _).
    apply lookup_lt_Some in Hdev. specialize (Hall k Hdev).
    subst entries. rewrite Hidx in Hall. congruence.
Qed.

Lemma lookup_by_kernel_index_first_reported_match_witness :
  scoped_device_list.lookup_by_kernel_index mock.healthy mock.the_list 1
    mock.start
  = (Ret (Some mock.mlx5_1),
     {| blocks := ∅; next_block := 0;
        trace := [Call_ibv_get_device_index mock.mlx5_0;
                  Call_ibv_get_device_index mock.mlx5_1] |}) ∧
  fst (scoped_device_list.lookup_by_kernel_index mock.no_index mock.the_list
         99999 mock.start) = Ret None.
Proof.
  split.
  - destruct (lookup_by_kernel_index_first_reported_match mock.healthy
                mock.start mock.the_list
                (snd (scoped_device_list.ctor mock.healthy mock.start))
                1 mock.start eq_refl) as (r & w' & Hr & _).
    rewrite Hr. vm_compute in Hr. injection Hr as <- <-. reflexivity.
  - destruct (lookup_by_kernel_index_first_reported_match mock.no_index
                mock.start mock.the_list
                (snd (scoped_device_list.ctor mock.no_index mock.start))
                99999 mock.start eq_refl) as (r & w' & Hr & _).
    rewrite Hr. vm_compute in Hr. injection Hr as <- _. reflexivity.
Defined.

(** C7 as the spec words it fails at [idx = -1] on the mock kernel without
    device indexes: index resolution is unsupported for the first entry, and
    the lookup returns that entry instead of "not found". *)
Lemma lookup_by_kernel_index_returns_unsupported_entry :
  ¬ (ibv_get_device_index mock.no_index (trace mock.start) mock.mlx5_0
       = index_unsupported →
     fst (scoped_device_list.lookup_by_kernel_index mock.no_index
            mock.the_list (-1) mock.start)
       ≠ Ret (Some mock.mlx5_0)).
Proof. intros H. by apply H. Qed.

(** [mock.the_list] is the directory the constructor builds there. *)
Example no_index_ctor_builds_the_list :
  fst (scoped_device_list.ctor mock.no_index mock.start) = Ret mock.the_list.
Proof. reflexivity. Qed.

(** ** IBDeviceProxy::open (C8) *)

Import py_adverbs.

(** C8: [open()] on any retained proxy enumerates afresh (one
    [ibv_get_device_list] call), scans the fresh entries with
    [lookup_by_kernel_index] for the proxy's [kernel_index], and either
    - finds a first entry whose reported index matches: it opens that entry
      and returns the context, or
    - finds none: it throws [runtime_error] whose message is
      "IBDeviceProxy with kernel index ", the index in decimal, " not found",
      and returns no context.
    On both ways out the fresh list is released by one
    [ibv_free_device_list] call. *)
Theorem IBDeviceProxy_open_resolves_or_not_found (drv : driver)
    (self : IBDeviceProxy.t) (w : world) :
  let kernel_index := IBDeviceProxy.kernel_index self in
  let fresh := ibv_get_device_list drv (trace w) in
  let entries := entries_of fresh in
  let h0 := trace w ++ [Call_ibv_get_device_list] in
  ∃ r w',
    IBDeviceProxy.open drv self w = (r, w') ∧
    ((∃ k dev h,
        entries !! k = Some dev ∧
        reported_index drv h0 entries k = Some kernel_index ∧
        (∀ j, j < k → reported_index drv h0 entries j ≠ Some kernel_index) ∧
        r = Ret h ∧
        context_handle.get h
          = ibv_open_device drv (h0 ++ index_calls entries (S k)) dev ∧
        blocks w' !! sp_block (context_handle._context h)
          = Some {| cb_deleter := Call_ibv_close_device (context_handle.get h);
                    use_count := 1 |} ∧
        trace w' = h0 ++ index_calls entries (S k)
                      ++ [Call_ibv_open_device dev;
                          Call_ibv_free_device_list fresh])
     ∨
     ((∀ j, reported_index drv h0 entries j ≠ Some kernel_index) ∧
      r = Throw (runtime_error
                   ("IBDeviceProxy with kernel index "
                    +:+ NilZero.string_of_int (Z.to_int kernel_index)
                    +:+ " not found")) ∧
      trace w' = h0 ++ index_calls entries (length entries)
                    ++ [Call_ibv_free_device_list fresh])).
Proof.
  intros kernel_index fresh entries h0.
  unfold IBDeviceProxy.open, scoped. unfold bind at 1.
  destruct (scoped_device_list.ctor drv w) as [o w1] eqn:Hctor.
  pose proof Hctor as Hctor_eq. rewrite scoped_device_list_ctor_eq in Hctor_eq.
  injection Hctor_eq as <- <-.
  match type of Hctor with _ = (Ret ?x, ?y) => set (l := x) in *; set (w1 := y) in * end.
  destruct (lookup_by_kernel_index_scan drv w l w1 kernel_index w1 Hctor)
    as (r & w2 & Hr & Hb & Hn & Hspec).
  fold fresh entries in Hspec. change (trace w1) with h0 in Hspec.
  unfold bind at 1. fold kernel_index. rewrite Hr.
  assert (Hlist : blocks w1 !! next_block w
          = Some {| cb_deleter := Call_ibv_free_device_list fresh;
                    use_count := 1 |})
    by apply lookup_insert_eq.
  destruct r as [dev|].
  - destruct Hspec as (k & Hdev & Hidx & Hbefore & Htr).
    rewrite context_handle_ctor_eq.
    unfold bind, scoped_device_list.dtor, shared_ptr_dtor, ret; simpl.
    rewrite lookup_insert_ne by (rewrite Hn; simpl; lia).
    rewrite Hb, Hlist. simpl.
    eexists _, _. split; [reflexivity|]. left.
    exists k, dev. eexists. split_and!; try done.
    + unfold context_handle.get; simpl. by rewrite Htr.
    + simpl. rewrite Hn. simpl.
      rewrite lookup_delete_ne by lia. apply lookup_insert_eq.
    + simpl. rewrite Htr. by rewrite <- !app_assoc.
  - destruct Hspec as [Hnone Htr].
    unfold throw, bind, scoped_device_list.dtor, shared_ptr_dtor; simpl.
    rewrite Hb, Hlist. simpl.
    eexists _, _. split; [reflexivity|]. right.
    split_and!; try done. simpl. rewrite Htr. by rewrite <- !app_assoc.
Qed.

(** On the mock: the proxy of "mlx5_1" reopens as the context of "mlx5_1";
    a proxy whose index no adapter has any more is not found. *)
Example IBDeviceProxy_open_mlx5_1 :
  ∃ proxies w1,
    list_devices mock.healthy mock.start = (Ret proxies, w1) ∧
    ∃ proxy, proxies !! 1 = Some proxy ∧
    IBDeviceProxy.name proxy = "mlx5_1"%string ∧
    ∃ h, fst (IBDeviceProxy.open mock.healthy proxy w1) = Ret h ∧
         context_handle.get h = context_handle.get mock.the_context.
Proof.
  eexists _, _. split; [reflexivity|].
  eexists. split; [reflexivity|]. split; [reflexivity|].
  eexists. split; reflexivity.
Qed.

Example IBDeviceProxy_open_removed_adapter :
  ∀ proxy, IBDeviceProxy.kernel_index proxy = 7%Z →
  fst (IBDeviceProxy.open mock.healthy proxy mock.start)
  = Throw (runtime_error "IBDeviceProxy with kernel index 7 not found").
Proof. intros [k g nt n dn dp ip]; simpl; intros ->. reflexivity. Qed.

(** ** query_ports (C2) *)

Lemma port_count_fits_uint8 (attr : ibv_device_attr) :
  context_handle.port_count attr ≤ 255.
Proof.
  unfold context_handle.port_count.
  pose proof (Byte.to_N_bounded (phys_port_cnt attr)). lia.
Qed.

Lemma to_uint8_t_port (i : nat) :
  i < 255 → to_uint8_t (Z.of_nat i + 1) = (Z.of_nat i + 1)%Z.
Proof. intros H. unfold to_uint8_t. apply Z.mod_small. lia. Qed.

Lemma port_history_S (h0 : list call) (c : ibv_context) (i : nat) :
  port_history h0 c (S i)
  = port_history h0 c i ++ [Call_ibv_query_port c (Z.of_nat i + 1)].
Proof.
  unfold port_history. rewrite seq_S, map_app, <- app_assoc. simpl.
  by rewrite Nat2Z.inj_succ, Z.add_1_r.
Qed.

(** The loop of [query_ports], from iteration [i] on: it either fills the
    rest of the vector with the driver's answers for the ports up to [n], or
    throws at the first port whose query fails, having queried no port
    beyond it. *)
Lemma query_ports_loop_spec (drv : driver) (h : context_handle.t)
    (c : ibv_context) (h0 : list call) (n : nat) :
  context_handle.get h = Some c →
  n ≤ 255 →
  ∀ remaining i port_attr w,
    i + remaining = n →
    length port_attr = n →
    trace w = port_history h0 c i →
    (∀ j, j < i → (port_reply drv h0 c j).1 = 0%Z ∧
                  port_attr !! j = Some (port_reply drv h0 c j).2) →
    ∃ r w',
      context_handle.query_ports_loop drv h remaining i port_attr w = (r, w') ∧
      blocks w' = blocks w ∧ next_block w' = next_block w ∧
      ((∃ ports,
          r = Ret ports ∧ length ports = n ∧
          (∀ j, j < n → (port_reply drv h0 c j).1 = 0%Z ∧
                        ports !! j = Some (port_reply drv h0 c j).2) ∧
          trace w' = port_history h0 c n)
       ∨
       (∃ k,
          k < n ∧
          (∀ j, j < k → (port_reply drv h0 c j).1 = 0%Z) ∧
          (port_reply drv h0 c k).1 ≠ 0%Z ∧
          r = Throw (runtime_error "ibv_query_port failed") ∧
          trace w' = port_history h0 c (S k))).
Proof.
  intros Hget Hn.
  induction remaining as [|r IH]; intros i port_attr w Hi Hlen Htrace Hfilled.
  - replace i with n in * by lia.
    exists (Ret port_attr), w. split_and!; try done.
    left. by exists port_attr.
  - simpl. rewrite Hget, to_uint8_t_port by lia.
    unfold call_ibv_query_port, bind at 1, bind at 1, bind at 1, history,
      log, ret; simpl.
    assert (Hreply : ibv_query_port drv (trace w) c (Z.of_nat i + 1)
                     = port_reply drv h0 c i)
      by (unfold port_reply; by rewrite Htrace).
    rewrite Hreply.
    destruct (Z.eqb_spec (port_reply drv h0 c i).1 0) as [Hok|Hbad].
    + edestruct (IH (S i) (<[i := (port_reply drv h0 c i).2]> port_attr))
        as (res & w' & Hres & Hb & Hnb & Hspec);
        [lia | by rewrite length_insert | |
         | exists res, w'; split; [exact Hres|]; by split_and!].
      * simpl. by rewrite Htrace, port_history_S.
      * intros j Hj. destruct (decide (j = i)) as [->|Hji].
        -- split; [done|]. apply list_lookup_insert_eq. lia.
        -- rewrite list_lookup_insert_ne by done. apply Hfilled. lia.
    + eexists _, _. split; [reflexivity|]. split_and!; try done.
      right. exists i. split_and!; [lia | | done | done |].
      * intros j Hj. by apply Hfilled.
      * simpl. by rewrite Htrace, port_history_S.
Qed.

(** [query_device_attr] on an open context: one device query, whose return
    code decides between the attributes and an exception. *)
Lemma query_device_attr_eq (drv : driver) (h : context_handle.t)
    (c : ibv_context) (w : world) :
  context_handle.get h = Some c →
  context_handle.query_device_attr drv h w
  = (if ((ibv_query_device drv (trace w) c).1 =? 0)%Z
     then Ret (ibv_query_device drv (trace w) c).2
     else Throw (runtime_error "ibv_query_device failed"),
     {| blocks := blocks w; next_block := next_block w;
        trace := trace w ++ [Call_ibv_query_device c] |}).
Proof.
  intros Hget. unfold context_handle.query_device_attr. rewrite Hget.
  unfold call_ibv_query_device, bind, history, log, ret, throw; simpl.
  by destruct ((ibv_query_device drv (trace w) c).1 =? 0)%Z.
Qed.

(** C2: on every open context, [query_ports()] first makes the device query
    and takes [phys_port_cnt] from it, then queries the ports 1, 2, ... in
    ascending order, one call each.  With [h0] the history after the device
    query:
    - if the device query fails it throws, having queried no port;
    - if every port query succeeds it returns one [ibv_port_attr] per port,
      the answer for port [i + 1] at position [i], so that its length is the
      [phys_port_cnt] that [query_device_attr()] returns;
    - otherwise it throws at the first failing port, queries no port beyond
      it, and returns no list.
    No control block is touched. *)
Theorem query_ports_all_or_nothing (drv : driver) (h : context_handle.t)
    (c : ibv_context) (w : world) :
  context_handle.get h = Some c →
  let device_reply := ibv_query_device drv (trace w) c in
  let n := context_handle.port_count device_reply.2 in
  let h0 := trace w ++ [Call_ibv_query_device c] in
  ∃ r w',
    context_handle.query_ports drv h w = (r, w') ∧
    blocks w' = blocks w ∧
    ((device_reply.1 ≠ 0%Z ∧
      r = Throw (runtime_error "ibv_query_device failed") ∧
      trace w' = h0)
     ∨
     (device_reply.1 = 0%Z ∧
      ∃ ports,
        r = Ret ports ∧ length ports = n ∧
        (∀ i, i < n → (port_reply drv h0 c i).1 = 0%Z ∧
                      ports !! i = Some (port_reply drv h0 c i).2) ∧
        trace w' = port_history h0 c n ∧
        (∀ attr w_attr,
           context_handle.query_device_attr drv h w = (Ret attr, w_attr) →
           Z.of_nat (length ports) = Z.of_N (Byte.to_N (phys_port_cnt attr))))
     ∨
     (device_reply.1 = 0%Z ∧
      ∃ k,
        k < n ∧
        (∀ i, i < k → (port_reply drv h0 c i).1 = 0%Z) ∧
        (port_reply drv h0 c k).1 ≠ 0%Z ∧
        r = Throw (runtime_error "ibv_query_port failed") ∧
        trace w' = port_history h0 c (S k))).
Proof.
  intros Hget device_reply n h0.
  unfold context_handle.query_ports, bind.
  rewrite (query_device_attr_eq drv h c w Hget). fold device_reply.
  destruct (Z.eqb_spec device_reply.1 0) as [Hok|Hbad].
  - fold n.
    edestruct (query_ports_loop_spec drv h c h0 n Hget
                 (port_count_fits_uint8 _) n 0
                 (replicate n zero_port_attr))
      as (r & w' & Hr & Hb & _ & Hspec);
      [lia | apply length_replicate | | | exists r, w'; split; [exact Hr|]].
    + unfold port_history. simpl. by rewrite app_nil_r.
    + intros j Hj. lia.
    + split; [done|]. right.
      destruct Hspec as [(ports & -> & Hlen & Hports & Htr)|Hfail].
      * left. split; [done|]. exists ports. split_and!; try done.
        intros attr w_attr [= <- _]. rewrite Hlen. unfold n, context_handle.port_count.
        lia.
      * right. split; [done|]. exact Hfail.
  - eexists _, _. split; [reflexivity|]. split; [done|]. left. by split_and!.
Qed.

Lemma query_ports_all_or_nothing_witness :
  context_handle.query_ports mock.healthy mock.the_context mock.start
  = (Ret [mock.ib_port; mock.eth_port],
     {| blocks := ∅; next_block := 0;
        trace := [Call_ibv_query_device 8192%N;
                  Call_ibv_query_port 8192%N 1;
                  Call_ibv_query_port 8192%N 2] |}) ∧
  context_handle.query_ports mock.bad_port_2 mock.the_context mock.start
  = (Throw (runtime_error "ibv_query_port failed"),
     {| blocks := ∅; next_block := 0;
        trace := [Call_ibv_query_device 8192%N;
                  Call_ibv_query_port 8192%N 1;
                  Call_ibv_query_port 8192%N 2] |}).
Proof.
  split.
  - destruct (query_ports_all_or_nothing mock.healthy mock.the_context
                8192%N mock.start eq_refl) as (r & w' & Hr & _).
    rewrite Hr. vm_compute in Hr. injection Hr as <- <-. reflexivity.
  - destruct (query_ports_all_or_nothing mock.bad_port_2 mock.the_context
                8192%N mock.start eq_refl) as (r & w' & Hr & _).
    rewrite Hr. vm_compute in Hr. injection Hr as <- <-. reflexivity.
Defined.

(** ** Filtered port queries (C1) *)

Import adverbs_0.

(** [erase] after [remove_if]: what stays is what [pred] rejects, in order. *)
Lemma erase_remove_if {A} (pred : A → bool) (v : list A) :
  erase_to_end (remove_if pred v).1 (remove_if pred v).2
  = List.filter (λ x, negb (pred x)) v.
Proof. unfold erase_to_end, remove_if. simpl. apply take_app_length. Qed.

(** [context_handle::query_ports(filter)] passes [filter] itself to
    [remove_if]: it returns the ports that [filter] rejects. *)
Lemma context_handle_query_ports_filter_complement (drv : driver)
    (h : context_handle.t) (filter : ibv_port_attr → bool) (w : world) :
  context_handle.query_ports_filter drv h filter w
  = match context_handle.query_ports drv h w with
    | (Ret ports, w') =>
        (Ret (List.filter (λ port, negb (filter port)) ports), w')
    | (Throw e, w') => (Throw e, w')
    | (Undef, w') => (Undef, w')
    end.
Proof.
  unfold context_handle.query_ports_filter, bind.
  destruct (context_handle.query_ports drv h w) as [[ports|e|] w']; try done.
  unfold ret. by rewrite erase_remove_if.
Qed.

(** [device_handle::query_ports(filter)] negates [filter] for [remove_if]: it
    returns exactly the ports of [query_ports()] that satisfy [filter], in
    their order, and fails only where [query_ports()] fails. *)
Lemma device_handle_query_ports_filter_subsequence (drv : driver)
    (h : device_handle.t) (filter : ibv_port_attr → bool) (w : world) :
  device_handle.query_ports_filter drv h filter w
  = match device_handle.query_ports drv h w with
    | (Ret ports, w') => (Ret (List.filter filter ports), w')
    | (Throw e, w') => (Throw e, w')
    | (Undef, w') => (Undef, w')
    end.
Proof.
  unfold device_handle.query_ports_filter, bind.
  destruct (device_handle.query_ports drv h w) as [[ports|e|] w']; try done.
  unfold ret. rewrite erase_remove_if. do 2 f_equal.
  apply List.filter_ext. intros port. apply negb_involutive.
Qed.

(** C1 at the mock adapter with an InfiniBand port 1 and an Ethernet port 2,
    filtered by "the link layer is InfiniBand": [query_ports()] gives both
    ports, the subsequence satisfying the filter is port 1 alone, and
    [context_handle::query_ports(filter)] returns port 2 alone, while
    [device_handle::query_ports(filter)] returns port 1. *)
Theorem context_handle_query_ports_filter_inverted :
  fst (context_handle.query_ports mock.healthy mock.the_context mock.start)
    = Ret [mock.ib_port; mock.eth_port] ∧
  List.filter mock.is_infiniband [mock.ib_port; mock.eth_port]
    = [mock.ib_port] ∧
  fst (context_handle.query_ports_filter mock.healthy mock.the_context
         mock.is_infiniband mock.start)
    = Ret [mock.eth_port] ∧
  fst (device_handle.query_ports_filter mock.healthy mock.the_device_handle
         mock.is_infiniband mock.start)
    = Ret [mock.ib_port].
Proof. split_and!; reflexivity. Qed.

(** ** Quiet computations

    Queries and lookups touch no control block and release nothing. *)

Lemma releases_app (evs1 evs2 : list call) :
  releases (evs1 ++ evs2) = releases evs1 ++ releases evs2.
Proof. unfold releases. apply List.filter_app. Qed.

Lemma quiet_ret {A} (a : A) : quiet (ret a).
Proof. intros w. split; [done|]. exists []. by rewrite app_nil_r. Qed.

Lemma quiet_throw {A} (e : exception) : quiet (@throw A e).
Proof. intros w. split; [done|]. exists []. by rewrite app_nil_r. Qed.

Lemma quiet_undefined {A} : quiet (@undefined A).
Proof. intros w. split; [done|]. exists []. by rewrite app_nil_r. Qed.

Lemma quiet_history : quiet history.
Proof. intros w. split; [done|]. exists []. by rewrite app_nil_r. Qed.

Lemma quiet_log (c : call) : client.is_release c = false → quiet (log c).
Proof.
  intros Hc w. split; [done|]. exists [c]. split; [done|].
  unfold releases. simpl. by rewrite Hc.
Qed.

Lemma quiet_bind {A B} (m : M A) (k : A → M B) :
  quiet m → (∀ a, quiet (k a)) → quiet (bind m k).
Proof.
  intros Hm Hk w. unfold bind.
  destruct (Hm w) as (Hb & evs & Ht & Hr).
  destruct (m w) as [[a|e|] w1]; simpl in *; try by eauto.
  destruct (Hk a w1) as (Hb2 & evs2 & Ht2 & Hr2).
  split; [congruence|]. exists (evs ++ evs2).
  rewrite Ht2, Ht, app_assoc, releases_app, Hr, Hr2. done.
Qed.

Lemma quiet_try {A} (m : M A) : quiet m → quiet (try_ m).
Proof.
  intros Hm w. unfold try_. specialize (Hm w).
  by destruct (m w) as [[a|e|] w1].
Qed.

Create HintDb quiet.
#[local] Hint Resolve quiet_ret quiet_throw quiet_undefined quiet_history
  quiet_try : quiet.
#[local] Hint Extern 1 (quiet (bind _ _)) =>
  apply quiet_bind; [|intros ?] : quiet.
#[local] Hint Extern 1 (quiet (log _)) =>
  apply quiet_log; reflexivity : quiet.
#[local] Hint Extern 2 (quiet (if ?b then _ else _)) => destruct b : quiet.
#[local] Hint Extern 2 (quiet (match ?o with Some _ => _ | None => _ end)) =>
  destruct o : quiet.

Lemma quiet_query_device_attr drv h :
  quiet (context_handle.query_device_attr drv h).
Proof.
  unfold context_handle.query_device_attr, call_ibv_query_device.
  auto 10 with quiet.
Qed.

Lemma quiet_query_ports_loop drv h remaining i port_attr :
  quiet (context_handle.query_ports_loop drv h remaining i port_attr).
Proof.
  revert i port_attr. induction remaining as [|r IH]; intros i port_attr;
    simpl; unfold call_ibv_query_port; auto 10 with quiet.
Qed.

Lemma quiet_query_ports drv h : quiet (context_handle.query_ports drv h).
Proof.
  unfold context_handle.query_ports.
  apply quiet_bind; [apply quiet_query_device_attr|].
  intros attr. apply quiet_query_ports_loop.
Qed.

Lemma quiet_query_ports_filter drv h filter :
  quiet (context_handle.query_ports_filter drv h filter).
Proof.
  unfold context_handle.query_ports_filter.
  apply quiet_bind; [apply quiet_query_ports | auto with quiet].
Qed.

Lemma quiet_deref p i : quiet (scoped_device_list.deref p i).
Proof. unfold scoped_device_list.deref. auto 10 with quiet. Qed.

Lemma quiet_lookup_by_predicate l predicate :
  (∀ dev, quiet (predicate dev)) →
  quiet (scoped_device_list.lookup_by_predicate l predicate).
Proof.
  intros Hp. unfold scoped_device_list.lookup_by_predicate.
  destruct (scoped_device_list._size l <? 0)%Z; [apply quiet_undefined|].
  generalize (Z.to_nat (scoped_device_list._size l)) as remaining, 0 as i.
  induction remaining as [|r IH]; intros i; simpl; [apply quiet_ret|].
  apply quiet_bind; [apply quiet_deref|]. intros dev.
  apply quiet_bind; [apply Hp|]. intros [|]; [apply quiet_ret | apply IH].
Qed.

Lemma quiet_lookup_by_name drv l name_ :
  quiet (scoped_device_list.lookup_by_name drv l name_).
Proof. apply quiet_lookup_by_predicate. intros dev. apply quiet_ret. Qed.

Lemma quiet_lookup_by_kernel_index drv l kernel_index :
  quiet (scoped_device_list.lookup_by_kernel_index drv l kernel_index).
Proof.
  apply quiet_lookup_by_predicate. intros dev.
  unfold call_ibv_get_device_index. auto 10 with quiet.
Qed.

Lemma quiet_lookup_by_guid drv l guid :
  quiet (scoped_device_list.lookup_by_guid drv l guid).
Proof.
  apply quiet_lookup_by_predicate. intros dev.
  unfold call_ibv_get_device_guid. auto 10 with quiet.
Qed.

(** ** Reference counting *)

Lemma shared_ptr_copy_owned {T} (s : shared_ptr T) (w : world) d n :
  owned w (sp_block s) d n →
  shared_ptr_copy s w
  = (Ret s,
     {| blocks := <[sp_block s := {| cb_deleter := d; use_count := S n |}]>
                    (blocks w);
        next_block := next_block w;
        trace := trace w |}).
Proof. unfold owned, shared_ptr_copy. by intros ->. Qed.

Lemma shared_ptr_dtor_shared {T} (s : shared_ptr T) (w : world) d n :
  owned w (sp_block s) d (S (S n)) →
  shared_ptr_dtor s w
  = (Ret tt,
     {| blocks := <[sp_block s := {| cb_deleter := d; use_count := S n |}]>
                    (blocks w);
        next_block := next_block w;
        trace := trace w |}).
Proof. unfold owned, shared_ptr_dtor. by intros ->. Qed.

Lemma shared_ptr_dtor_last {T} (s : shared_ptr T) (w : world) d :
  owned w (sp_block s) d 1 →
  shared_ptr_dtor s w
  = (Ret tt,
     {| blocks := delete (sp_block s) (blocks w);
        next_block := next_block w;
        trace := trace w ++ [d] |}).
Proof. unfold owned, shared_ptr_dtor. by intros ->. Qed.

Section owners.
Context {T Stmt : Type}.
Variable step : gmap nat T → Stmt → M (gmap nat T).
Variable destroys : Stmt → nat → Prop.
Variable orig : T.
Variable b : nat.
Variable d : call.

Hypothesis step_empty : ∀ s w, (step ∅ s w).1 = Undef.
Hypothesis step_owned : ∀ env s w env' w',
  env ≠ ∅ → aliases orig env → owned w b d (size env) →
  step env s w = (Ret env', w') →
  keeps_or_releases destroys orig b d env s w env' w'.

(** With no owner left, no statement can run. *)
Lemma run_no_owner prog w env' w' :
  client.run step prog ∅ w = (Ret env', w') →
  prog = [] ∧ env' = ∅ ∧ w' = w.
Proof.
  destruct prog as [|s rest]; simpl.
  - by intros [= <- <-].
  - unfold bind. pose proof (step_empty s w) as Hs.
    destruct (step ∅ s w) as [[env1|e|] w1]; simpl in Hs; congruence.
Qed.

(** Over a whole program: while an owner is alive the block counts the
    owners and nothing has been released; when none is left, the last
    statement destroyed the last owner and made the one deleter call. *)
Lemma run_owned prog : ∀ env w env' w',
  env ≠ ∅ → aliases orig env → owned w b d (size env) →
  client.run step prog env w = (Ret env', w') →
  aliases orig env' ∧
  ((env' ≠ ∅ ∧ owned w' b d (size env') ∧
    ∃ evs, trace w' = trace w ++ evs ∧ releases evs = [])
   ∨
   (env' = ∅ ∧ blocks w' !! b = None ∧
    ∃ prog0 s x w_ evs,
      prog = prog0 ++ [s] ∧ destroys s x ∧
      client.run step prog0 env w = (Ret {[x := orig]}, w_) ∧
      trace w_ = trace w ++ evs ∧ releases evs = [] ∧
      trace w' = trace w_ ++ [d])).
Proof.
  induction prog as [|s rest IH]; intros env w env' w' Hne Hal Hown Hrun.
  - simpl in Hrun. injection Hrun as <- <-. split; [done|]. left.
    split_and!; try done. exists []. by rewrite app_nil_r.
  - simpl in Hrun. unfold bind in Hrun.
    destruct (step env s w) as [[env1|e|] w1] eqn:Hstep; try discriminate.
    destruct (step_owned env s w env1 w1 Hne Hal Hown Hstep)
      as [Hal1 [(Hne1 & Hown1 & evs1 & Ht1 & Hr1)
               |(-> & Hgone & x & Hx & Henv & Ht1)]].
    + destruct (IH env1 w1 env' w' Hne1 Hal1 Hown1 Hrun)
        as [Hal' [(Hne' & Hown' & evs2 & Ht2 & Hr2)
                 |(-> & Hgone & prog0 & s' & x & w_ & evs2 & -> & Hx
                   & Hrun0 & Ht_ & Hr_ & Ht')]]; (split; [done|]).
      * left. split_and!; try done. exists (evs1 ++ evs2).
        by rewrite Ht2, Ht1, app_assoc, releases_app, Hr1, Hr2.
      * right. split_and!; try done.
        exists (s :: prog0), s', x, w_, (evs1 ++ evs2).
        split_and!; try done.
        -- simpl. unfold bind. by rewrite Hstep.
        -- by rewrite Ht_, Ht1, app_assoc.
        -- by rewrite releases_app, Hr1, Hr_.
    + apply run_no_owner in Hrun as (-> & -> & ->).
      split; [done|]. right. split_and!; try done.
      exists [], s, x, w, []. rewrite app_nil_r.
      split_and!; try done. simpl. by rewrite Henv.
Qed.

End owners.

(** A query whose exceptions the client catches leaves the variables, the
    blocks and the releases as they were. *)
Lemma caught_quiet_step {A T} (m : M A) (env env' : gmap nat T) w w' :
  quiet m →
  (_ <- try_ m;; ret env) w = (Ret env', w') →
  env' = env ∧ blocks w' = blocks w ∧
  ∃ evs, trace w' = trace w ++ evs ∧ releases evs = [].
Proof.
  intros Hq. destruct (Hq w) as (Hb & evs & Ht & Hr).
  unfold bind, try_, ret.
  destruct (m w) as [[a|e|] w1]; simpl in *; intros [= <- <-]; eauto.
Qed.

Lemma map_singleton_of_size_1 {T} (env : gmap nat T) x v :
  env !! x = Some v → size env = 1 → env = {[x := v]}.
Proof.
  intros Hx Hsize.
  assert (Hdel : delete x env = ∅).
  { apply map_size_empty_inv. rewrite map_size_delete_Some by eauto. lia. }
  by rewrite <- (insert_delete_id env x v Hx), Hdel.
Qed.

(** ** One statement of a client

    The three kinds of statement, for any class that holds its resource in
    one [shared_ptr]: [copy_] and [dtor_] are the class's copy constructor
    and destructor. *)

Section statements.
Context {T Stmt : Type}.
Variable destroys : Stmt → nat → Prop.
Variable orig : T.
Variable b : nat.
Variable d : call.
Variable copy_ : T → M T.
Variable dtor_ : T → M unit.

Hypothesis copy_owned : ∀ w n,
  owned w b d n →
  copy_ orig w
  = (Ret orig,
     {| blocks := <[b := {| cb_deleter := d; use_count := S n |}]> (blocks w);
        next_block := next_block w;
        trace := trace w |}).
Hypothesis dtor_shared : ∀ w n,
  owned w b d (S (S n)) →
  dtor_ orig w
  = (Ret tt,
     {| blocks := <[b := {| cb_deleter := d; use_count := S n |}]> (blocks w);
        next_block := next_block w;
        trace := trace w |}).
Hypothesis dtor_last : ∀ w,
  owned w b d 1 →
  dtor_ orig w
  = (Ret tt,
     {| blocks := delete b (blocks w);
        next_block := next_block w;
        trace := trace w ++ [d] |}).

Variable env : gmap nat T.
Variable s : Stmt.
Variable w : world.
Hypothesis env_ne : env ≠ ∅.
Hypothesis env_aliases : aliases orig env.
Hypothesis env_owned : owned w b d (size env).

Lemma copy_statement dst src env' w' :
  match env !! src, env !! dst with
  | Some v, None => v' <- copy_ v;; ret (<[dst := v']> env)
  | _, _ => undefined
  end w = (Ret env', w') →
  keeps_or_releases destroys orig b d env s w env' w'.
Proof.
  destruct (env !! src) as [v|] eqn:Hsrc; [|discriminate].
  destruct (env !! dst) as [v'|] eqn:Hdst; [discriminate|].
  pose proof (env_aliases _ _ Hsrc) as ->.
  unfold bind. rewrite (copy_owned _ _ env_owned). intros [= <- <-].
  split.
  - intros y v' Hy. destruct (decide (y = dst)) as [->|Hyd].
    + rewrite lookup_insert_eq in Hy. congruence.
    + rewrite lookup_insert_ne in Hy by done. by apply (env_aliases y).
  - left. split_and!.
    + apply insert_non_empty.
    + unfold owned. simpl.
      rewrite map_size_insert_None by done. apply lookup_insert_eq.
    + exists []. by rewrite app_nil_r.
Qed.

Lemma destroy_statement x env' w' :
  destroys s x →
  match env !! x with
  | Some v => _ <- dtor_ v;; ret (delete x env)
  | None => undefined
  end w = (Ret env', w') →
  keeps_or_releases destroys orig b d env s w env' w'.
Proof.
  intros Hs. destruct (env !! x) as [v|] eqn:Hx; [|discriminate].
  pose proof (env_aliases _ _ Hx) as ->.
  assert (Hal' : aliases orig (delete x env)).
  { intros y v' Hy. destruct (decide (y = x)) as [->|Hyx].
    - by rewrite lookup_delete_eq in Hy.
    - rewrite lookup_delete_ne in Hy by done. by apply (env_aliases y). }
  assert (Hsize : size env = S (size (delete x env))).
  { rewrite map_size_delete_Some by eauto.
    pose proof (proj2 (map_size_non_empty_iff env) env_ne). lia. }
  pose proof env_owned as Hown. rewrite Hsize in Hown.
  unfold bind. destruct (size (delete x env)) as [|n] eqn:Hrest.
  - rewrite (dtor_last _ Hown). intros [= <- <-].
    split; [done|]. right. split_and!.
    + by apply map_size_empty_inv.
    + simpl. apply lookup_delete_eq.
    + exists x. split_and!; try done.
      apply map_singleton_of_size_1; [done | lia].
  - rewrite (dtor_shared _ _ Hown). intros [= <- <-].
    split; [done|]. left. split_and!.
    + apply map_size_non_empty_iff. lia.
    + unfold owned. simpl. rewrite Hrest. apply lookup_insert_eq.
    + exists []. by rewrite app_nil_r.
Qed.

Lemma query_statement {A} (m : T → M A) x env' w' :
  (∀ v, quiet (m v)) →
  match env !! x with
  | Some v => _ <- try_ (m v);; ret env
  | None => undefined
  end w = (Ret env', w') →
  keeps_or_releases destroys orig b d env s w env' w'.
Proof.
  intros Hq. destruct (env !! x) as [v|] eqn:Hx; [|discriminate].
  intros Hm.
  destruct (caught_quiet_step (m v) env env' w w' (Hq v) Hm)
    as (-> & Hb & evs & Ht & Hr).
  split; [done|]. left. split_and!; try done; [|by eauto].
  unfold owned. rewrite Hb. exact env_owned.
Qed.

End statements.

(** ** Exactly-once release of a context (C9) *)

Lemma context_step_no_owner drv s w :
  (client.context_step drv ∅ s w).1 = Undef.
Proof. destruct s; simpl; by rewrite ?lookup_empty. Qed.

Lemma context_handle_eta (h : context_handle.t) :
  {| context_handle._context := context_handle._context h |} = h.
Proof. by destruct h. Qed.

Lemma context_step_owned drv (h : context_handle.t) (d : call) :
  ∀ env s w env' w',
    env ≠ ∅ → aliases h env →
    owned w (sp_block (context_handle._context h)) d (size env) →
    client.context_step drv env s w = (Ret env', w') →
    keeps_or_releases (λ s x, s = client.DestroyContext x) h
      (sp_block (context_handle._context h)) d env s w env' w'.
Proof.
  intros env s w env' w' Hne Hal Hown Hstep.
  destruct s as [dst src|x|x|x|x filter]; simpl in Hstep.
  - refine (copy_statement _ h _ d context_handle.copy _ env _ w Hal Hown
              dst src env' w' Hstep).
    intros w2 n Hn. unfold context_handle.copy, bind.
    by rewrite (shared_ptr_copy_owned _ _ _ _ Hn), context_handle_eta.
  - refine (destroy_statement _ h _ d context_handle.dtor _ _ env _ w
              Hne Hal Hown x env' w' eq_refl Hstep).
    + intros w2 n Hn. by apply shared_ptr_dtor_shared.
    + intros w2 Hn. by apply shared_ptr_dtor_last.
  - refine (query_statement _ h _ d env _ w Hne Hal Hown
              (context_handle.query_device_attr drv) x env' w' _ Hstep).
    apply quiet_query_device_attr.
  - refine (query_statement _ h _ d env _ w Hne Hal Hown
              (context_handle.query_ports drv) x env' w' _ Hstep).
    apply quiet_query_ports.
  - refine (query_statement _ h _ d env _ w Hne Hal Hown
              (λ v, context_handle.query_ports_filter drv v filter)
              x env' w' _ Hstep).
    intros v. apply quiet_query_ports_filter.
Qed.

(** C9: take any device, the [context_handle] constructed on it, and any
    client program that copies the handle any number of times, queries
    through any live copy, and destroys copies in any order.  Then every
    live variable holds an alias of the one resource, and
    - while an owner is alive, [ibv_close_device] has not been called and
      the control block counts the live owners;
    - once no owner is left, [ibv_close_device] has been called exactly
      once, on the context's pointer, as the last call, made by the
      statement that destroyed the sole remaining owner [x], whichever
      variable that was; no query made a release call. *)
Theorem context_close_exactly_once (drv : driver) (dev : ibv_device)
    (w0 : world) (h : context_handle.t) (w1 : world)
    (prog : list client.context_stmt) (env' : gmap nat context_handle.t)
    (w' : world) :
  context_handle.ctor drv dev w0 = (Ret h, w1) →
  client.context_run drv prog {[0 := h]} w1 = (Ret env', w') →
  let close := Call_ibv_close_device (context_handle.get h) in
  let b := sp_block (context_handle._context h) in
  aliases h env' ∧
  ∃ evs,
    trace w' = trace w1 ++ evs ∧
    ((env' ≠ ∅ ∧ releases evs = [] ∧ owned w' b close (size env'))
     ∨
     (env' = ∅ ∧ releases evs = [close] ∧ blocks w' !! b = None ∧
      ∃ prog0 x w_,
        prog = prog0 ++ [client.DestroyContext x] ∧
        client.context_run drv prog0 {[0 := h]} w1 = (Ret {[x := h]}, w_) ∧
        trace w' = trace w_ ++ [close])).
Proof.
  intros Hctor Hrun close b.
  assert (Hown : owned w1 b close (size ({[0 := h]} : gmap nat _))).
  { rewrite context_handle_ctor_eq in Hctor. injection Hctor as <- <-.
    rewrite map_size_singleton. apply lookup_insert_eq. }
  assert (Hne0 : ({[0 := h]} : gmap nat context_handle.t) ≠ ∅)
    by apply insert_non_empty.
  assert (Hal0 : aliases h ({[0 := h]} : gmap nat context_handle.t)).
  { intros y v Hy. by apply lookup_singleton_Some in Hy as [_ <-]. }
  destruct (run_owned (client.context_step drv)
              (λ s x, s = client.DestroyContext x) h b close
              (context_step_no_owner drv)
              (context_step_owned drv h close)
              prog {[0 := h]} w1 env' w' Hne0 Hal0 Hown Hrun)
    as [Hal [(Hne & Hown' & evs & Ht & Hr)
            |(-> & Hgone & prog0 & s & x & w_ & evs & -> & -> & Hrun0
              & Ht_ & Hr_ & Ht')]].
  - split; [done|]. exists evs. split; [done|]. left. by split_and!.
  - split; [done|]. exists (evs ++ [close]). split.
    + by rewrite Ht', Ht_, app_assoc.
    + right. split_and!; try done.
      * by rewrite releases_app, Hr_.
      * by exists prog0, x, w_.
Qed.

Lemma context_close_exactly_once_witness :
  let w1 := snd (context_handle.ctor mock.healthy mock.mlx5_1 mock.start) in
  let prog := [client.CopyContext 1 0; client.CopyContext 2 1;
               client.QueryPorts 2; client.DestroyContext 0;
               client.QueryDeviceAttr 1; client.DestroyContext 2;
               client.DestroyContext 1] in
  let w' := snd (client.context_run mock.healthy prog
                   {[0 := mock.the_context]} w1) in
  context_handle.ctor mock.healthy mock.mlx5_1 mock.start
    = (Ret mock.the_context, w1) ∧
  client.context_run mock.healthy prog {[0 := mock.the_context]} w1
    = (Ret ∅, w') ∧
  ∃ evs, trace w' = trace w1 ++ evs ∧
         releases evs = [Call_ibv_close_device (Some 8192%N)].
Proof.
  intros w1 prog w'.
  assert (Hctor : context_handle.ctor mock.healthy mock.mlx5_1 mock.start
                  = (Ret mock.the_context, w1)) by reflexivity.
  assert (Hrun : client.context_run mock.healthy prog
                   {[0 := mock.the_context]} w1 = (Ret ∅, w'))
    by reflexivity.
  split; [exact Hctor|]. split; [exact Hrun|].
  destruct (context_close_exactly_once mock.healthy mock.mlx5_1 mock.start
              mock.the_context w1 prog ∅ w' Hctor Hrun)
    as [_ (evs & Ht & [(Hne & _)|(_ & Hr & _)])].
  - by destruct Hne.
  - by exists evs.
Defined.

(** ** Copies of a directory (C10) *)

Lemma list_step_no_owner drv s w :
  (client.list_step drv ∅ s w).1 = Undef.
Proof. destruct s; simpl; by rewrite ?lookup_empty. Qed.

Lemma scoped_device_list_eta (l : scoped_device_list.t) :
  {| scoped_device_list._size := scoped_device_list._size l;
     scoped_device_list._device_list := scoped_device_list._device_list l |}
  = l.
Proof. by destruct l. Qed.

Lemma list_step_owned drv (l : scoped_device_list.t) (d : call) :
  ∀ env s w env' w',
    env ≠ ∅ → aliases l env →
    owned w (sp_block (scoped_device_list._device_list l)) d (size env) →
    client.list_step drv env s w = (Ret env', w') →
    keeps_or_releases (λ s x, s = client.DestroyList x) l
      (sp_block (scoped_device_list._device_list l)) d env s w env' w'.
Proof.
  intros env s w env' w' Hne Hal Hown Hstep.
  destruct s as [dst src|x|x name_|x kernel_index|x guid]; simpl in Hstep.
  - refine (copy_statement _ l _ d scoped_device_list.copy _ env _ w Hal Hown
              dst src env' w' Hstep).
    intros w2 n Hn. unfold scoped_device_list.copy, bind.
    by rewrite (shared_ptr_copy_owned _ _ _ _ Hn), scoped_device_list_eta.
  - refine (destroy_statement _ l _ d scoped_device_list.dtor _ _ env _ w
              Hne Hal Hown x env' w' eq_refl Hstep).
    + intros w2 n Hn. by apply shared_ptr_dtor_shared.
    + intros w2 Hn. by apply shared_ptr_dtor_last.
  - refine (query_statement _ l _ d env _ w Hne Hal Hown
              (λ v, scoped_device_list.lookup_by_name drv v name_)
              x env' w' _ Hstep).
    intros v. apply quiet_lookup_by_name.
  - refine (query_statement _ l _ d env _ w Hne Hal Hown
              (λ v, scoped_device_list.lookup_by_kernel_index drv v
                      kernel_index)
              x env' w' _ Hstep).
    intros v. apply quiet_lookup_by_kernel_index.
  - refine (query_statement _ l _ d env _ w Hne Hal Hown
              (λ v, scoped_device_list.lookup_by_guid drv v guid)
              x env' w' _ Hstep).
    intros v. apply quiet_lookup_by_guid.
Qed.

(** C10: take the [scoped_device_list] the constructor built and any client
    program that copies it any number of times, looks entries up through any
    live copy, and destroys copies in any order.  Then
    - every live copy is an alias of the original: it stores the same array
      pointer and the same control block, so that [get()], [size()], indexed
      access and the lookups agree with the original's;
    - while a copy is alive, the control block counts the live copies and
      [ibv_free_device_list] has not been called;
    - once no copy is left, [ibv_free_device_list] has been called exactly
      once, on the array, as the last call, made by the statement that
      destroyed the last copy. *)
Theorem scoped_device_list_copies_share_one_array (drv : driver) (w0 : world)
    (l : scoped_device_list.t) (w1 : world) (prog : list client.list_stmt)
    (env' : gmap nat scoped_device_list.t) (w' : world) :
  scoped_device_list.ctor drv w0 = (Ret l, w1) →
  client.list_run drv prog {[0 := l]} w1 = (Ret env', w') →
  let free := Call_ibv_free_device_list (scoped_device_list.get l) in
  let b := sp_block (scoped_device_list._device_list l) in
  (∀ x c, env' !! x = Some c →
     scoped_device_list.get c = scoped_device_list.get l ∧
     sp_block (scoped_device_list._device_list c) = b ∧
     scoped_device_list.size c = scoped_device_list.size l ∧
     (∀ i, scoped_device_list.index c i = scoped_device_list.index l i) ∧
     (∀ name_, scoped_device_list.lookup_by_name drv c name_
               = scoped_device_list.lookup_by_name drv l name_)) ∧
  ∃ evs,
    trace w' = trace w1 ++ evs ∧
    ((env' ≠ ∅ ∧ releases evs = [] ∧ owned w' b free (size env'))
     ∨
     (env' = ∅ ∧ releases evs = [free] ∧ blocks w' !! b = None ∧
      ∃ prog0 x w_,
        prog = prog0 ++ [client.DestroyList x] ∧
        client.list_run drv prog0 {[0 := l]} w1 = (Ret {[x := l]}, w_) ∧
        trace w' = trace w_ ++ [free])).
Proof.
  intros Hctor Hrun free b.
  assert (Hown : owned w1 b free (size ({[0 := l]} : gmap nat _))).
  { rewrite scoped_device_list_ctor_eq in Hctor. injection Hctor as <- <-.
    rewrite map_size_singleton. apply lookup_insert_eq. }
  assert (Hne0 : ({[0 := l]} : gmap nat scoped_device_list.t) ≠ ∅)
    by apply insert_non_empty.
  assert (Hal0 : aliases l ({[0 := l]} : gmap nat scoped_device_list.t)).
  { intros y v Hy. by apply lookup_singleton_Some in Hy as [_ <-]. }
  destruct (run_owned (client.list_step drv)
              (λ s x, s = client.DestroyList x) l b free
              (list_step_no_owner drv)
              (list_step_owned drv l free)
              prog {[0 := l]} w1 env' w' Hne0 Hal0 Hown Hrun)
    as [Hal [(Hne & Hown' & evs & Ht & Hr)
            |(-> & Hgone & prog0 & s & x & w_ & evs & -> & -> & Hrun0
              & Ht_ & Hr_ & Ht')]].
  - split; [by intros y c ->%Hal|].
    exists evs. split; [done|]. left. by split_and!.
  - split; [by intros y c ->%Hal|].
    exists (evs ++ [free]). split.
    + by rewrite Ht', Ht_, app_assoc.
    + right. split_and!; try done.
      * by rewrite releases_app, Hr_.
      * by exists prog0, x, w_.
Qed.

Lemma scoped_device_list_copies_share_one_array_witness :
  let w1 := snd (scoped_device_list.ctor mock.healthy mock.start) in
  let prog := [client.CopyList 1 0; client.LookupByName 1 "mlx5_0";
               client.DestroyList 0; client.LookupByKernelIndex 1 1;
               client.DestroyList 1] in
  let w' := snd (client.list_run mock.healthy prog {[0 := mock.the_list]} w1) in
  scoped_device_list.ctor mock.healthy mock.start = (Ret mock.the_list, w1) ∧
  client.list_run mock.healthy prog {[0 := mock.the_list]} w1 = (Ret ∅, w') ∧
  ∃ evs, trace w' = trace w1 ++ evs ∧
         releases evs
         = [Call_ibv_free_device_list (Some [mock.mlx5_0; mock.mlx5_1])].
Proof.
  intros w1 prog w'.
  assert (Hctor : scoped_device_list.ctor mock.healthy mock.start
                  = (Ret mock.the_list, w1)) by reflexivity.
  assert (Hrun : client.list_run mock.healthy prog {[0 := mock.the_list]} w1
                 = (Ret ∅, w')) by reflexivity.
  split; [exact Hctor|]. split; [exact Hrun|].
  destruct (scoped_device_list_copies_share_one_array mock.healthy mock.start
              mock.the_list w1 prog ∅ w' Hctor Hrun)
    as [_ (evs & Ht & [(Hne & _)|(_ & Hr & _)])].
  - by destruct Hne.
  - by exists evs.
Defined.

(** ** The mock scenario, end to end *)

(** [list_devices()] gives the two adapters in enumeration order, having
    enumerated once, asked for each index and GUID once, and released the
    list. *)
Example list_devices_on_the_mock :
  ∃ proxies w',
    list_devices mock.healthy mock.start = (Ret proxies, w') ∧
    map IBDeviceProxy.name proxies = ["mlx5_0"; "mlx5_1"]%string ∧
    map IBDeviceProxy.kernel_index proxies = [0; 1]%Z ∧
    map IBDeviceProxy.guid proxies = [170; 187]%Z ∧
    releases (trace w')
    = [Call_ibv_free_device_list (Some [mock.mlx5_0; mock.mlx5_1])] ∧
    blocks w' = ∅.
Proof. eexists _, _. split_and!; reflexivity. Qed.

(** * Further properties *)

(** ** A directory the constructor built: its scans run over the entries *)

Lemma lookup_by_predicate_ctor drv w0 l w1 predicate :
  scoped_device_list.ctor drv w0 = (Ret l, w1) →
  scoped_device_list.lookup_by_predicate l predicate
  = scoped_device_list.lookup_loop predicate (scoped_device_list.get l)
      (length (entries_of (ibv_get_device_list drv (trace w0)))) 0.
Proof.
  intros Hctor.
  destruct (scoped_device_list_ctor_fields _ _ _ _ Hctor) as [Hget Hsize].
  unfold scoped_device_list.lookup_by_predicate. rewrite Hsize.
  destruct (Z.ltb_spec
    (Z.of_nat (length (entries_of (ibv_get_device_list drv (trace w0))))) 0)
    as [Hneg|_]; [lia|].
  by rewrite Nat2Z.id.
Qed.

Lemma for_each_ctor {A} drv w0 l w1 (f : ibv_device → M A) :
  scoped_device_list.ctor drv w0 = (Ret l, w1) →
  scoped_device_list.for_each l f
  = scoped_device_list.collect_loop f (scoped_device_list.get l)
      (length (entries_of (ibv_get_device_list drv (trace w0)))) 0.
Proof.
  intros Hctor.
  destruct (scoped_device_list_ctor_fields _ _ _ _ Hctor) as [Hget Hsize].
  unfold scoped_device_list.for_each. rewrite Hsize.
  destruct (Z.ltb_spec
    (Z.of_nat (length (entries_of (ibv_get_device_list drv (trace w0))))) 0)
    as [Hneg|_]; [lia|].
  by rewrite Nat2Z.id.
Qed.

(** The scan with a predicate that makes no call is [List.find] on the part
    of the array still to scan. *)
Lemma lookup_loop_find (f : ibv_device → bool) (arr : list ibv_device)
    (remaining i : nat) (w : world) :
  i + remaining = length arr →
  scoped_device_list.lookup_loop (λ dev, ret (f dev)) (Some arr)
    remaining i w
  = (Ret (List.find f (drop i arr)), w).
Proof.
  revert i. induction remaining as [|r IH]; intros i Hlen.
  - by rewrite drop_ge by lia.
  - destruct (lookup_lt_is_Some_2 arr i) as [dev Hdev]; [lia|].
    simpl. unfold bind at 1. rewrite (deref_in_range _ _ _ _ Hdev).
    rewrite (drop_S _ _ _ Hdev). unfold bind, ret. simpl.
    destruct (f dev); [done|]. apply IH. lia.
Qed.

Lemma find_first {A} (f : A → bool) (l : list A) (k : nat) (x : A) :
  l !! k = Some x →
  f x = true →
  (∀ j y, j < k → l !! j = Some y → f y = false) →
  List.find f l = Some x.
Proof.
  revert k. induction l as [|a l IH]; intros k Hk Hx Hbefore; [done|].
  destruct k as [|k]; simpl in *.
  - injection Hk as ->. by rewrite Hx.
  - rewrite (Hbefore 0 a) by (done || lia).
    apply (IH k); [done | done |].
    intros j y Hj Hy. apply (Hbefore (S j) y); [lia | done].
Qed.

(** ** lookup_by_predicate *)

(** For a directory the constructor built and a predicate that only looks at
    the entry, [lookup_by_predicate] is [List.find] over the entries of the
    enumeration: the first entry that satisfies the predicate, or nullptr.
    It makes no driver call and changes no state. *)
Theorem lookup_by_predicate_is_find (drv : driver) (w0 : world)
    (l : scoped_device_list.t) (w1 : world) (f : ibv_device → bool)
    (w : world) :
  scoped_device_list.ctor drv w0 = (Ret l, w1) →
  scoped_device_list.lookup_by_predicate l (λ dev, ret (f dev)) w
  = (Ret (List.find f (entries_of (ibv_get_device_list drv (trace w0)))), w).
Proof.
  intros Hctor. rewrite (lookup_by_predicate_ctor _ _ _ _ _ Hctor).
  destruct (scoped_device_list_ctor_fields _ _ _ _ Hctor) as [-> _].
  destruct (ibv_get_device_list drv (trace w0)) as [arr|]; simpl.
  - by rewrite lookup_loop_find, drop_0.
  - reflexivity.
Qed.

Lemma lookup_by_predicate_is_find_witness :
  scoped_device_list.lookup_by_predicate mock.the_list
    (λ dev, ret (negb (mock.is_mlx5_0 dev))) mock.start
  = (Ret (Some mock.mlx5_1), mock.start).
Proof.
  rewrite (lookup_by_predicate_is_find mock.healthy mock.start mock.the_list
             (snd (scoped_device_list.ctor mock.healthy mock.start))
             (λ dev, negb (mock.is_mlx5_0 dev)) mock.start eq_refl).
  reflexivity.
Defined.

(** ** lookup_by_name: round trip and exactness *)

(** Looking an entry up by its own name gives that entry back, provided no
    earlier entry has the same name within the bound. *)
Theorem lookup_by_name_round_trip (drv : driver) (w0 : world)
    (l : scoped_device_list.t) (w1 : world) (k : nat) (dev : ibv_device)
    (w : world) :
  scoped_device_list.ctor drv w0 = (Ret l, w1) →
  let entries := entries_of (ibv_get_device_list drv (trace w0)) in
  entries !! k = Some dev →
  (∀ j d, j < k → entries !! j = Some d →
          c_prefix (IBV_SYSFS_NAME_MAX drv) (name d)
            ≠ c_prefix (IBV_SYSFS_NAME_MAX drv) (name dev)) →
  scoped_device_list.lookup_by_name drv l (name dev) w = (Ret (Some dev), w).
Proof.
  intros Hctor entries Hk Hbefore.
  unfold scoped_device_list.lookup_by_name.
  rewrite (lookup_by_predicate_ctor _ _ _ _ _ Hctor).
  destruct (scoped_device_list_ctor_fields _ _ _ _ Hctor) as [-> _].
  subst entries.
  destruct (ibv_get_device_list drv (trace w0)) as [arr|]; simpl in *;
    [|by rewrite lookup_nil in Hk].
  rewrite (lookup_loop_find
    (λ d, (strncmp (name d) (name dev) (IBV_SYSFS_NAME_MAX drv) =? 0)%Z))
    by done.
  rewrite drop_0. do 2 f_equal. apply (find_first _ _ k); [done | |].
  - apply Z.eqb_eq. by apply strncmp_zero_iff.
  - intros j d Hj Hd. apply Z.eqb_neq. intros Heq.
    apply strncmp_zero_iff in Heq. by apply (Hbefore j d).
Qed.

Lemma lookup_by_name_round_trip_witness :
  scoped_device_list.lookup_by_name mock.healthy mock.the_list
    (name mock.mlx5_1) mock.start
  = (Ret (Some mock.mlx5_1), mock.start).
Proof.
  apply (lookup_by_name_round_trip mock.healthy mock.start mock.the_list
           (snd (scoped_device_list.ctor mock.healthy mock.start))
           1 mock.mlx5_1 mock.start eq_refl eq_refl).
  intros [|j] d Hj Hd; [|lia]. injection Hd as <-. vm_compute. congruence.
Defined.

(** What a scan with a call-free predicate returns satisfies the predicate,
    whatever the directory. *)
Lemma lookup_loop_pure_sound (f : ibv_device → bool) p remaining i w dev w' :
  scoped_device_list.lookup_loop (λ d, ret (f d)) p remaining i w
    = (Ret (Some dev), w') →
  f dev = true.
Proof.
  revert i. induction remaining as [|r IH]; intros i; simpl; [done|].
  unfold bind at 1, scoped_device_list.deref.
  destruct p as [arr|]; [|done]. destruct (arr !! i) as [d|]; [|done].
  unfold bind, ret. simpl. destruct (f d) eqn:Hf.
  - by intros [= <- _].
  - apply IH.
Qed.

Lemma c_prefix_nul_free (n : nat) (s : string) :
  nul_free s = true →
  String.length (c_prefix n s) < n →
  c_prefix n s = s.
Proof.
  revert s. induction n as [|n IH]; intros s Hs Hlen; [lia|].
  destruct s as [|c r]; [done|]. simpl in *.
  apply andb_true_iff in Hs as [Hc Hr].
  apply negb_true_iff in Hc. rewrite Hc in *. simpl in Hlen.
  f_equal. apply IH; [done | lia].
Qed.

Lemma c_prefix_short (n : nat) (s : string) :
  nul_free s = true →
  String.length s < n →
  c_prefix n s = s.
Proof.
  revert s. induction n as [|n IH]; intros s Hs Hlen; [lia|].
  destruct s as [|c r]; [done|]. simpl in *.
  apply andb_true_iff in Hs as [Hc Hr].
  apply negb_true_iff in Hc. rewrite Hc.
  f_equal. apply IH; [done | lia].
Qed.

(** For names shorter than the bound the bounded lookup is exact: when
    [lookup_by_name(name)] returns an entry whose name is shorter than
    [IBV_SYSFS_NAME_MAX], that name is [name] itself (both being C strings,
    without a NUL inside).  This holds on any directory value. *)
Theorem lookup_by_name_exact_within_bound (drv : driver)
    (l : scoped_device_list.t) (name_ : string) (w : world)
    (dev : ibv_device) (w' : world) :
  scoped_device_list.lookup_by_name drv l name_ w = (Ret (Some dev), w') →
  String.length (name dev) < IBV_SYSFS_NAME_MAX drv →
  nul_free (name dev) = true →
  nul_free name_ = true →
  name dev = name_.
Proof.
  unfold scoped_device_list.lookup_by_name,
    scoped_device_list.lookup_by_predicate.
  intros Hlookup Hshort Hdev Hname.
  destruct (scoped_device_list._size l <? 0)%Z; [done|].
  apply lookup_loop_pure_sound in Hlookup.
  apply Z.eqb_eq, strncmp_zero_iff in Hlookup.
  rewrite (c_prefix_short _ _ Hdev Hshort) in Hlookup.
  rewrite Hlookup. apply c_prefix_nul_free; [done|]. by rewrite <- Hlookup.
Qed.

Lemma lookup_by_name_exact_within_bound_witness :
  scoped_device_list.lookup_by_name mock.healthy mock.the_list "mlx5_0"
    mock.start = (Ret (Some mock.mlx5_0), mock.start) ∧
  name mock.mlx5_0 = "mlx5_0"%string.
Proof.
  assert (Hlookup : scoped_device_list.lookup_by_name mock.healthy
                      mock.the_list "mlx5_0" mock.start
                    = (Ret (Some mock.mlx5_0), mock.start)) by reflexivity.
  split; [exact Hlookup|].
  apply (lookup_by_name_exact_within_bound mock.healthy mock.the_list
           "mlx5_0" mock.start mock.mlx5_0 mock.start Hlookup);
    [vm_compute; lia | reflexivity | reflexivity].
Defined.

(** ** Iteration: begin(), end(), size() *)

Lemma collect_loop_pure {A} (f : ibv_device → A) (arr : list ibv_device)
    (remaining i : nat) (w : world) :
  i + remaining = length arr →
  scoped_device_list.collect_loop (λ dev, ret (f dev)) (Some arr)
    remaining i w
  = (Ret (map f (drop i arr)), w).
Proof.
  revert i. induction remaining as [|r IH]; intros i Hlen.
  - by rewrite drop_ge by lia.
  - destruct (lookup_lt_is_Some_2 arr i) as [dev Hdev]; [lia|].
    simpl. unfold bind at 1. rewrite (deref_in_range _ _ _ _ Hdev).
    rewrite (drop_S _ _ _ Hdev). unfold bind at 1, ret at 1. simpl.
    unfold bind. rewrite IH by lia. reflexivity.
Qed.

(** Count consistency: a range-for over a directory the constructor built
    runs its body once for every entry of the enumeration, in enumeration
    order, so the number of elements it yields is [size()] (the count
    fitting a [size_t]); a body that makes no call leaves the state as it
    was. *)
Theorem for_each_yields_size_entries {A} (drv : driver) (w0 : world)
    (l : scoped_device_list.t) (w1 : world) (f : ibv_device → A)
    (w : world) :
  scoped_device_list.ctor drv w0 = (Ret l, w1) →
  let entries := entries_of (ibv_get_device_list drv (trace w0)) in
  scoped_device_list.for_each l (λ dev, ret (f dev)) w
    = (Ret (map f entries), w) ∧
  ((Z.of_nat (length entries) < 2 ^ 64)%Z →
   scoped_device_list.size l = Z.of_nat (length (map f entries))).
Proof.
  intros Hctor entries. split.
  - rewrite (for_each_ctor _ _ _ _ _ Hctor).
    destruct (scoped_device_list_ctor_fields _ _ _ _ Hctor) as [-> _].
    subst entries.
    destruct (ibv_get_device_list drv (trace w0)) as [arr|]; simpl.
    + by rewrite collect_loop_pure, drop_0.
    + reflexivity.
  - intros Hfit.
    destruct (scoped_device_list_ctor_fields _ _ _ _ Hctor) as [_ Hsize].
    unfold scoped_device_list.size. rewrite Hsize. fold entries.
    rewrite length_map. apply to_size_t_small. lia.
Qed.

Lemma for_each_yields_size_entries_witness :
  scoped_device_list.for_each mock.the_list (λ dev, ret (name dev)) mock.start
    = (Ret ["mlx5_0"; "mlx5_1"]%string, mock.start) ∧
  scoped_device_list.size mock.the_list = 2%Z.
Proof.
  destruct (for_each_yields_size_entries mock.healthy mock.start
              mock.the_list
              (snd (scoped_device_list.ctor mock.healthy mock.start))
              name mock.start eq_refl) as [Hfor Hsize].
  split; [exact Hfor|]. apply Hsize. vm_compute. reflexivity.
Defined.

(** ** Scans that ask the driver about each entry *)

Lemma answer_calls_S (C : ibv_device → call) (arr : list ibv_device)
    (i : nat) (dev : ibv_device) :
  arr !! i = Some dev →
  answer_calls C arr (S i) = answer_calls C arr i ++ [C dev].
Proof.
  intros H. unfold answer_calls. by rewrite (take_S_r _ _ _ H), map_app.
Qed.

(** A scan whose predicate logs the call [C dev], gets [answer] from the
    driver and compares it with [v]: it stops at the first entry whose
    answer is [v], having asked once for every entry up to it. *)
Lemma lookup_loop_reported (C : ibv_device → call)
    (answer : list call → ibv_device → Z) (v : Z)
    (predicate : ibv_device → M bool) (h0 : list call)
    (arr : list ibv_device) :
  (∀ dev w,
     predicate dev w
     = (Ret (answer (trace w) dev =? v)%Z,
        {| blocks := blocks w; next_block := next_block w;
           trace := trace w ++ [C dev] |})) →
  ∀ remaining i w,
    i + remaining = length arr →
    trace w = h0 ++ answer_calls C arr i →
    ∃ r w',
      scoped_device_list.lookup_loop predicate (Some arr) remaining i w
        = (Ret r, w') ∧
      blocks w' = blocks w ∧ next_block w' = next_block w ∧
      match r with
      | Some dev =>
          ∃ k, i ≤ k ∧ arr !! k = Some dev ∧
               reported C answer h0 arr k = Some v ∧
               (∀ j, i ≤ j < k → reported C answer h0 arr j ≠ Some v) ∧
               trace w' = h0 ++ answer_calls C arr (S k)
      | None =>
          (∀ j, i ≤ j → reported C answer h0 arr j ≠ Some v) ∧
          trace w' = h0 ++ answer_calls C arr (length arr)
      end.
Proof.
  intros Hpred.
  induction remaining as [|r IH]; intros i w Hlen Htrace.
  - exists None, w. split_and!; try done.
    + intros j Hj. unfold reported.
      by rewrite (proj2 (lookup_ge_None arr j)) by lia.
    + by replace (length arr) with i by lia.
  - destruct (lookup_lt_is_Some_2 arr i) as [dev Hdev]; [lia|].
    assert (Hrep : reported C answer h0 arr i
                   = Some (answer (trace w) dev)).
    { unfold reported. by rewrite Hdev, Htrace. }
    simpl. unfold bind at 1. rewrite (deref_in_range _ _ _ _ Hdev).
    unfold bind. rewrite Hpred.
    destruct (Z.eqb_spec (answer (trace w) dev) v) as [Heq|Hne].
    + eexists (Some dev), _. split; [reflexivity|]. simpl.
      split_and!; try done.
      exists i. split_and!; [lia | done | by rewrite Hrep, Heq | intros; lia |].
      by rewrite Htrace, (answer_calls_S _ _ _ _ Hdev), <- app_assoc.
    + edestruct (IH (S i)) as (res & w' & Hres & Hb & Hn & Hspec);
        [lia | | eexists res, w'; split; [exact Hres|]].
      { simpl.
        by rewrite Htrace, (answer_calls_S _ _ _ _ Hdev), <- app_assoc. }
      simpl in Hb, Hn. split_and!; try done.
      destruct res as [dev'|].
      * destruct Hspec as (k & Hk & Hdev' & Hidx & Hbefore & Htr).
        exists k. split_and!; [lia | done | done | | done].
        intros j Hj. destruct (decide (j = i)) as [->|Hji].
        -- rewrite Hrep. congruence.
        -- apply Hbefore. lia.
      * destruct Hspec as [Hnone Htr]. split; [|done].
        intros j Hj. destruct (decide (j = i)) as [->|Hji].
        -- rewrite Hrep. congruence.
        -- apply Hnone. lia.
Qed.

(** ** lookup_by_guid *)

(** On every directory the constructor built, [lookup_by_guid(guid)] scans
    the entries in enumeration order, asks the driver for the GUID of each
    entry it reaches (one [ibv_get_device_guid] call per entry scanned), and
    returns the first entry whose reported GUID equals [guid], or nullptr
    when none does.  It never throws and touches no control block. *)
Theorem lookup_by_guid_first_reported_match (drv : driver) (w0 : world)
    (l : scoped_device_list.t) (w1 : world) (guid : Z) (w : world) :
  scoped_device_list.ctor drv w0 = (Ret l, w1) →
  let entries := entries_of (ibv_get_device_list drv (trace w0)) in
  ∃ r w',
    scoped_device_list.lookup_by_guid drv l guid w = (Ret r, w') ∧
    blocks w' = blocks w ∧
    match r with
    | Some dev =>
        ∃ k, entries !! k = Some dev ∧
             reported_guid drv (trace w) entries k = Some guid ∧
             (∀ j, j < k → reported_guid drv (trace w) entries j ≠ Some guid) ∧
             trace w' = trace w
                        ++ answer_calls Call_ibv_get_device_guid entries (S k)
    | None =>
        (∀ j, reported_guid drv (trace w) entries j ≠ Some guid) ∧
        trace w' = trace w
                   ++ answer_calls Call_ibv_get_device_guid entries
                        (length entries)
    end.
Proof.
  intros Hctor entries.
  unfold scoped_device_list.lookup_by_guid.
  rewrite (lookup_by_predicate_ctor _ _ _ _ _ Hctor).
  destruct (scoped_device_list_ctor_fields _ _ _ _ Hctor) as [-> _].
  subst entries.
  destruct (ibv_get_device_list drv (trace w0)) as [arr|]; simpl.
  - destruct (lookup_loop_reported Call_ibv_get_device_guid
                (ibv_get_device_guid drv) guid
                (λ dev, g <- call_ibv_get_device_guid drv dev;;
                        ret (g =? guid)%Z)
                (trace w) arr (λ dev w2, eq_refl) (length arr) 0 w)
      as (r & w' & Hr & Hb & _ & Hspec);
      [done | by unfold answer_calls; rewrite app_nil_r |].
    exists r, w'. split_and!; try done.
    destruct r as [dev|].
    + destruct Hspec as (k & _ & Hdev & Hidx & Hbefore & Htr).
      exists k. split_and!; try done. intros j Hj. apply Hbefore. lia.
    + destruct Hspec as [Hnone Htr]. split; [|done].
      intros j. apply Hnone. lia.
  - exists None, w. split_and!; try done.
    unfold answer_calls. simpl. by rewrite app_nil_r.
Qed.

Lemma lookup_by_guid_first_reported_match_witness :
  scoped_device_list.lookup_by_guid mock.healthy mock.the_list 187 mock.start
  = (Ret (Some mock.mlx5_1),
     {| blocks := ∅; next_block := 0;
        trace := [Call_ibv_get_device_guid mock.mlx5_0;
                  Call_ibv_get_device_guid mock.mlx5_1] |}) ∧
  fst (scoped_device_list.lookup_by_guid mock.healthy mock.the_list
         (2 ^ 64 - 1) mock.start) = Ret None.
Proof.
  split.
  - destruct (lookup_by_guid_first_reported_match mock.healthy mock.start
                mock.the_list
                (snd (scoped_device_list.ctor mock.healthy mock.start))
                187 mock.start eq_refl) as (r & w' & Hr & _).
    rewrite Hr. vm_compute in Hr. injection Hr as <- <-. reflexivity.
  - destruct (lookup_by_guid_first_reported_match mock.healthy mock.start
                mock.the_list
                (snd (scoped_device_list.ctor mock.healthy mock.start))
                (2 ^ 64 - 1) mock.start eq_refl) as (r & w' & Hr & _).
    rewrite Hr. vm_compute in Hr. injection Hr as <- _. reflexivity.
Defined.

(** ** lookup_by_kernel_index: round trip *)

(** Two first matches are the same entry. *)
Lemma first_match_unique (P : nat → Prop) (k k' : nat) :
  P k → (∀ j, j < k → ¬ P j) →
  P k' → (∀ j, j < k' → ¬ P j) →
  k = k'.
Proof.
  intros Hk Hbefore Hk' Hbefore'.
  destruct (lt_eq_lt_dec k k') as [[Hlt|Heq]|Hgt]; [|done|].
  - by destruct (Hbefore' k Hlt).
  - by destruct (Hbefore k' Hgt).
Qed.

(** The lookup finds what is there: if entry [k] is the first whose
    reported index is [idx], then [lookup_by_kernel_index(idx)] returns
    entry [k], having asked for the indexes of the entries up to it. *)
Theorem lookup_by_kernel_index_round_trip (drv : driver) (w0 : world)
    (l : scoped_device_list.t) (w1 : world) (idx : Z) (w : world)
    (k : nat) (dev : ibv_device) :
  scoped_device_list.ctor drv w0 = (Ret l, w1) →
  let entries := entries_of (ibv_get_device_list drv (trace w0)) in
  entries !! k = Some dev →
  reported_index drv (trace w) entries k = Some idx →
  (∀ j, j < k → reported_index drv (trace w) entries j ≠ Some idx) →
  ∃ w',
    scoped_device_list.lookup_by_kernel_index drv l idx w
      = (Ret (Some dev), w') ∧
    blocks w' = blocks w ∧
    trace w' = trace w ++ index_calls entries (S k).
Proof.
  intros Hctor entries Hk Hrep Hbefore.
  destruct (lookup_by_kernel_index_scan drv w0 l w1 idx w Hctor)
    as (r & w' & Hr & Hb & _ & Hspec).
  fold entries in Hspec. exists w'.
  destruct r as [dev'|].
  - destruct Hspec as (k' & Hdev' & Hrep' & Hbefore' & Htr).
    assert (k = k') as <-
      by (apply (first_match_unique
                   (λ j, reported_index drv (trace w) entries j = Some idx));
          done).
    rewrite Hk in Hdev'. injection Hdev' as <-. by split_and!.
  - destruct Hspec as [Hnone _]. by destruct (Hnone k).
Qed.

Lemma lookup_by_kernel_index_round_trip_witness :
  ∃ w',
    scoped_device_list.lookup_by_kernel_index mock.healthy mock.the_list
      (ibv_get_device_index mock.healthy [] mock.mlx5_1) mock.start
      = (Ret (Some mock.mlx5_1), w') ∧
    blocks w' = blocks mock.start ∧
    trace w' = trace mock.start
               ++ index_calls [mock.mlx5_0; mock.mlx5_1] 2.
Proof.
  apply (lookup_by_kernel_index_round_trip mock.healthy mock.start
           mock.the_list
           (snd (scoped_device_list.ctor mock.healthy mock.start))
           1 mock.start 1 mock.mlx5_1 eq_refl eq_refl eq_refl).
  intros [|j] Hj; [|lia]. vm_compute. congruence.
Defined.

(** ** list_devices *)

Lemma read_c_string_Some (bound : nat) (buf s : string) :
  read_c_string bound buf = Some s →
  s = c_prefix bound buf ∧ terminated bound buf.
Proof.
  unfold terminated. revert buf s.
  induction bound as [|b IH]; intros buf s; simpl; [done|].
  destruct buf as [|c r]; simpl.
  - intros [= <-]. split; [done | simpl; lia].
  - destruct (Ascii.eqb c zero).
    + intros [= <-]. split; [done | simpl; lia].
    + destruct (read_c_string b r) as [t|] eqn:Ht; [|done].
      simpl. intros [= <-].
      destruct (IH _ _ Ht) as [-> Hlen]. split; [done | simpl; lia].
Qed.

Lemma read_c_string_terminated (bound : nat) (buf : string) :
  terminated bound buf →
  read_c_string bound buf = Some (c_prefix bound buf).
Proof.
  unfold terminated. revert buf.
  induction bound as [|b IH]; intros buf Hlen; simpl in *; [lia|].
  destruct buf as [|c r]; [done|].
  destruct (Ascii.eqb c zero); [done|].
  simpl in Hlen. by rewrite IH by lia.
Qed.

Lemma std_string_terminated (bound : nat) (buf : string) (w : world) :
  terminated bound buf →
  std_string bound buf w = (Ret (c_prefix bound buf), w).
Proof.
  intros H. unfold std_string. by rewrite (read_c_string_terminated _ _ H).
Qed.

(** The conversion stops at the first NUL, and is undefined on a buffer
    that holds none. *)
Example std_string_stops_at_nul :
  std_string 64 ("ab" +:+ String zero "cd") mock.start
  = (Ret "ab", mock.start).
Proof. reflexivity. Qed.

Example std_string_unterminated_buffer :
  std_string 4 "abcd" mock.start = (Undef, mock.start).
Proof. reflexivity. Qed.

Example device_names_unterminated_name :
  let dev := {| node_type := IBV_NODE_CA; name := "abcd";
                dev_name := "uverbs0"; dev_path := "/sys/a";
                ibdev_path := "/sys/b" |} in
  let drv := {| IBV_SYSFS_NAME_MAX := 4;
                ibv_get_device_list := λ _, Some [dev];
                ibv_get_device_index := ibv_get_device_index mock.healthy;
                ibv_get_device_guid := ibv_get_device_guid mock.healthy;
                ibv_open_device := ibv_open_device mock.healthy;
                ibv_query_device := ibv_query_device mock.healthy;
                ibv_query_port := ibv_query_port mock.healthy |} in
  (adverbs_pyext.device_names drv mock.start).1 = Undef
  ∧ (list_devices drv mock.start).1 = Undef.
Proof. split; reflexivity. Qed.

(** The constructor, by the four conversions. *)
Lemma IBDeviceProxy_ctor_unfold drv dev w :
  IBDeviceProxy.ctor drv dev w
  = let w' := {| blocks := blocks w; next_block := next_block w;
                 trace := (trace w ++ [Call_ibv_get_device_index dev])
                          ++ [Call_ibv_get_device_guid dev] |} in
    match read_c_string (IBV_SYSFS_NAME_MAX drv) (name dev),
          read_c_string (IBV_SYSFS_NAME_MAX drv) (dev_name dev),
          read_c_string IBV_SYSFS_PATH_MAX (dev_path dev),
          read_c_string IBV_SYSFS_PATH_MAX (ibdev_path dev) with
    | Some name_, Some dev_name_, Some dev_path_, Some ibdev_path_ =>
        (Ret {| IBDeviceProxy.kernel_index :=
                  ibv_get_device_index drv (trace w) dev;
                IBDeviceProxy.guid :=
                  ibv_get_device_guid drv
                    (trace w ++ [Call_ibv_get_device_index dev]) dev;
                IBDeviceProxy.node_type := node_type dev;
                IBDeviceProxy.name := name_;
                IBDeviceProxy.dev_name := dev_name_;
                IBDeviceProxy.dev_path := dev_path_;
                IBDeviceProxy.ibdev_path := ibdev_path_ |}, w')
    | _, _, _, _ => (Undef, w')
    end.
Proof.
  unfold IBDeviceProxy.ctor, std_string.
  generalize (read_c_string (IBV_SYSFS_NAME_MAX drv) (name dev)),
             (read_c_string (IBV_SYSFS_NAME_MAX drv) (dev_name dev)),
             (read_c_string IBV_SYSFS_PATH_MAX (dev_path dev)),
             (read_c_string IBV_SYSFS_PATH_MAX (ibdev_path dev)).
  by intros [?|] [?|] [?|] [?|].
Qed.

Lemma IBDeviceProxy_ctor_eq drv dev w :
  terminated_entry drv dev →
  IBDeviceProxy.ctor drv dev w
  = (Ret (snapshot drv (trace w) dev),
     {| blocks := blocks w; next_block := next_block w;
        trace := (trace w ++ [Call_ibv_get_device_index dev])
                 ++ [Call_ibv_get_device_guid dev] |}).
Proof.
  intros (Hn & Hd & Hp & Hi). rewrite IBDeviceProxy_ctor_unfold.
  by rewrite (read_c_string_terminated _ _ Hn),
             (read_c_string_terminated _ _ Hd),
             (read_c_string_terminated _ _ Hp),
             (read_c_string_terminated _ _ Hi).
Qed.

Lemma IBDeviceProxy_ctor_Ret drv dev w proxy w' :
  IBDeviceProxy.ctor drv dev w = (Ret proxy, w') →
  terminated_entry drv dev.
Proof.
  rewrite IBDeviceProxy_ctor_unfold.
  destruct (read_c_string (IBV_SYSFS_NAME_MAX drv) (name dev))
    as [?|] eqn:Hn; [|done].
  destruct (read_c_string (IBV_SYSFS_NAME_MAX drv) (dev_name dev))
    as [?|] eqn:Hd; [|done].
  destruct (read_c_string IBV_SYSFS_PATH_MAX (dev_path dev))
    as [?|] eqn:Hp; [|done].
  destruct (read_c_string IBV_SYSFS_PATH_MAX (ibdev_path dev))
    as [?|] eqn:Hi; [|done].
  intros _.
  split_and!; eapply read_c_string_Some; eassumption.
Qed.

(** The range-for of [list_devices] returns only when every entry it reaches
    holds C strings. *)
Lemma collect_loop_ctor_Ret (drv : driver) (arr : list ibv_device) :
  ∀ remaining i w proxies w',
    i + remaining = length arr →
    scoped_device_list.collect_loop (IBDeviceProxy.ctor drv) (Some arr)
      remaining i w = (Ret proxies, w') →
    Forall (terminated_entry drv) (drop i arr).
Proof.
  induction remaining as [|r IH]; intros i w proxies w' Hlen.
  - intros _. by rewrite drop_ge by lia.
  - destruct (lookup_lt_is_Some_2 arr i) as [dev Hdev]; [lia|].
    simpl. unfold bind at 1. rewrite (deref_in_range _ _ _ _ Hdev).
    unfold bind at 1.
    destruct (IBDeviceProxy.ctor drv dev w) as [[p| |] w1] eqn:Hctor;
      [|done..].
    unfold bind at 1.
    destruct (scoped_device_list.collect_loop (IBDeviceProxy.ctor drv)
                (Some arr) r (S i) w1) as [[ps| |] w2] eqn:Hrest; [|done..].
    intros _. rewrite (drop_S _ _ _ Hdev). constructor.
    + by eapply IBDeviceProxy_ctor_Ret.
    + eapply (IH (S i)); [lia | exact Hrest].
Qed.

Lemma snapshot_calls_S (arr : list ibv_device) (i : nat) (dev : ibv_device) :
  arr !! i = Some dev →
  snapshot_calls arr (S i)
  = snapshot_calls arr i
    ++ [Call_ibv_get_device_index dev; Call_ibv_get_device_guid dev].
Proof.
  intros H. unfold snapshot_calls.
  by rewrite (take_S_r _ _ _ H), map_app, concat_app.
Qed.

(** The range-for of [list_devices] from entry [i] on: one proxy per entry
    left, each made from the driver's answers at the moment the loop reaches
    the entry. *)
Lemma collect_loop_snapshot (drv : driver) (h0 : list call)
    (arr : list ibv_device) :
  ∀ remaining i w,
    Forall (terminated_entry drv) (drop i arr) →
    i + remaining = length arr →
    trace w = h0 ++ snapshot_calls arr i →
    ∃ proxies w',
      scoped_device_list.collect_loop (IBDeviceProxy.ctor drv) (Some arr)
        remaining i w = (Ret proxies, w') ∧
      blocks w' = blocks w ∧ next_block w' = next_block w ∧
      length proxies = remaining ∧
      (∀ j dev, arr !! (i + j) = Some dev →
         proxies !! j
         = Some (snapshot drv (h0 ++ snapshot_calls arr (i + j)) dev)) ∧
      trace w' = h0 ++ snapshot_calls arr (length arr).
Proof.
  induction remaining as [|r IH]; intros i w Hwf Hlen Htrace.
  - exists [], w. split_and!; try done.
    + intros j dev Hdev. apply lookup_lt_Some in Hdev. lia.
    + by replace (length arr) with i by lia.
  - destruct (lookup_lt_is_Some_2 arr i) as [dev Hdev]; [lia|].
    rewrite (drop_S _ _ _ Hdev) in Hwf.
    apply Forall_cons in Hwf as [Hwf_dev Hwf].
    simpl. unfold bind at 1. rewrite (deref_in_range _ _ _ _ Hdev).
    unfold bind at 1. rewrite (IBDeviceProxy_ctor_eq _ _ _ Hwf_dev).
    destruct (IH (S i)
                {| blocks := blocks w; next_block := next_block w;
                   trace := (trace w ++ [Call_ibv_get_device_index dev])
                            ++ [Call_ibv_get_device_guid dev] |})
      as (rest & w' & Hrest & Hb & Hn & Hlen' & Hps & Htr); [done | lia | |].
    { simpl. by rewrite Htrace, (snapshot_calls_S _ _ _ Hdev), <- !app_assoc. }
    unfold bind. rewrite Hrest.
    eexists _, w'. split; [reflexivity|]. split_and!; try done.
    + simpl. by rewrite Hlen'.
    + intros [|j] dev' Hdev'.
      * rewrite Nat.add_0_r in *. rewrite Hdev in Hdev'.
        injection Hdev' as <-. simpl. by rewrite Htrace.
      * simpl. replace (i + S j) with (S i + j) in * by lia. by apply Hps.
Qed.

(** [list_devices], in terms of the entries of its fresh enumeration. *)
Lemma list_devices_scan (drv : driver) (w : world) :
  let fresh := ibv_get_device_list drv (trace w) in
  let entries := entries_of fresh in
  let h0 := trace w ++ [Call_ibv_get_device_list] in
  Forall (terminated_entry drv) entries →
  ∃ proxies w',
    list_devices drv w = (Ret proxies, w') ∧
    length proxies = length entries ∧
    (∀ k dev, entries !! k = Some dev →
       proxies !! k
       = Some (snapshot drv (h0 ++ snapshot_calls entries k) dev)) ∧
    trace w' = h0 ++ snapshot_calls entries (length entries)
                  ++ [Call_ibv_free_device_list fresh] ∧
    blocks w' = delete (next_block w) (blocks w).
Proof.
  intros fresh entries h0 Hwf.
  unfold list_devices, scoped. unfold bind at 1.
  destruct (scoped_device_list.ctor drv w) as [o w1] eqn:Hctor.
  pose proof Hctor as Hctor_eq.
  rewrite scoped_device_list_ctor_eq in Hctor_eq.
  injection Hctor_eq as <- <-.
  rewrite (for_each_ctor _ _ _ _ _ Hctor).
  fold fresh entries. unfold scoped_device_list.get. simpl.
  assert (Hcases :
    ∃ proxies w2,
      scoped_device_list.collect_loop (IBDeviceProxy.ctor drv) fresh
        (length entries) 0
        {| blocks :=
             <[next_block w :=
                 {| cb_deleter := Call_ibv_free_device_list fresh;
                    use_count := 1 |}]> (blocks w);
           next_block := S (next_block w);
           trace := h0 |} = (Ret proxies, w2) ∧
      blocks w2
      = <[next_block w :=
            {| cb_deleter := Call_ibv_free_device_list fresh;
               use_count := 1 |}]> (blocks w) ∧
      length proxies = length entries ∧
      (∀ k dev, entries !! k = Some dev →
         proxies !! k
         = Some (snapshot drv (h0 ++ snapshot_calls entries k) dev)) ∧
      trace w2 = h0 ++ snapshot_calls entries (length entries)).
  { subst entries. destruct fresh as [arr|]; simpl.
    - edestruct (collect_loop_snapshot drv h0 arr (length arr) 0)
        as (ps & w2 & Hps & Hb & _ & Hlen & Hlook & Htr);
        [by rewrite drop_0 | done | |
         exists ps, w2; split; [exact Hps|]; by split_and!].
      unfold snapshot_calls. simpl. by rewrite app_nil_r.
    - exists [], {| blocks :=
                      <[next_block w :=
                          {| cb_deleter := Call_ibv_free_device_list None;
                             use_count := 1 |}]> (blocks w);
                    next_block := S (next_block w);
                    trace := h0 |}.
      split_and!; try done.
      unfold snapshot_calls. simpl. by rewrite app_nil_r. }
  destruct Hcases as (proxies & w2 & Hloop & Hb & Hlen & Hlook & Htr).
  unfold h0 in Hloop. rewrite Hloop.
  unfold bind, scoped_device_list.dtor, shared_ptr_dtor, ret; simpl.
  rewrite Hb, lookup_insert_eq. simpl.
  eexists _, _. split; [reflexivity|]. simpl.
  split_and!; try done.
  - by rewrite Htr, <- !app_assoc.
  - by rewrite delete_insert_eq.
Qed.

(** [list_devices] returns only when every entry of its enumeration holds
    C strings. *)
Lemma list_devices_Ret (drv : driver) (w : world)
    (proxies : list IBDeviceProxy.t) (w' : world) :
  list_devices drv w = (Ret proxies, w') →
  Forall (terminated_entry drv)
    (entries_of (ibv_get_device_list drv (trace w))).
Proof.
  unfold list_devices, scoped. unfold bind at 1.
  destruct (scoped_device_list.ctor drv w) as [o w1] eqn:Hctor.
  pose proof Hctor as Hctor_eq.
  rewrite scoped_device_list_ctor_eq in Hctor_eq.
  injection Hctor_eq as <- <-.
  rewrite (for_each_ctor _ _ _ _ _ Hctor).
  unfold scoped_device_list.get. simpl.
  destruct (ibv_get_device_list drv (trace w)) as [arr|]; [|by constructor].
  simpl.
  match goal with
  | |- context [scoped_device_list.collect_loop ?f ?p ?n ?i ?x] =>
      destruct (scoped_device_list.collect_loop f p n i x)
        as [[ps|e|] w2] eqn:Hloop
  end.
  - intros _. rewrite <- (drop_0 arr).
    by eapply (collect_loop_ctor_Ret drv arr (length arr) 0).
  - unfold bind. by destruct (scoped_device_list.dtor _ w2) as [[| |] ?].
  - done.
Qed.

(** [list_devices()] on an enumeration whose entries hold C strings (a NUL
    within each of the buffers [name], [dev_name], [dev_path] and
    [ibdev_path]): it enumerates once, makes one proxy per entry in
    enumeration order, each identity string being the C string of the
    entry's buffer (the buffer's characters before its first NUL, so the
    whole of a string without a NUL inside), the node type copied, the index
    and the GUID taken from one driver call each, and releases the list with
    one [ibv_free_device_list] call before it returns; no control block is
    left behind.  When the enumeration fails it returns the empty list. *)
Theorem list_devices_snapshots_every_entry (drv : driver) (w : world) :
  let fresh := ibv_get_device_list drv (trace w) in
  let entries := entries_of fresh in
  let h0 := trace w ++ [Call_ibv_get_device_list] in
  Forall (terminated_entry drv) entries →
  ∃ proxies w',
    list_devices drv w = (Ret proxies, w') ∧
    map IBDeviceProxy.name proxies
      = map (λ dev, c_prefix (IBV_SYSFS_NAME_MAX drv) (name dev)) entries ∧
    map IBDeviceProxy.node_type proxies = map node_type entries ∧
    map IBDeviceProxy.dev_name proxies
      = map (λ dev, c_prefix (IBV_SYSFS_NAME_MAX drv) (dev_name dev))
          entries ∧
    map IBDeviceProxy.dev_path proxies
      = map (λ dev, c_prefix IBV_SYSFS_PATH_MAX (dev_path dev)) entries ∧
    map IBDeviceProxy.ibdev_path proxies
      = map (λ dev, c_prefix IBV_SYSFS_PATH_MAX (ibdev_path dev)) entries ∧
    (∀ k dev, entries !! k = Some dev →
       ∃ proxy, proxies !! k = Some proxy ∧
         IBDeviceProxy.kernel_index proxy
         = ibv_get_device_index drv (h0 ++ snapshot_calls entries k) dev ∧
         IBDeviceProxy.guid proxy
         = ibv_get_device_guid drv
             (h0 ++ snapshot_calls entries k
                 ++ [Call_ibv_get_device_index dev]) dev ∧
         (nul_free (name dev) = true →
          IBDeviceProxy.name proxy = name dev) ∧
         (nul_free (dev_name dev) = true →
          IBDeviceProxy.dev_name proxy = dev_name dev) ∧
         (nul_free (dev_path dev) = true →
          IBDeviceProxy.dev_path proxy = dev_path dev) ∧
         (nul_free (ibdev_path dev) = true →
          IBDeviceProxy.ibdev_path proxy = ibdev_path dev)) ∧
    trace w' = h0 ++ snapshot_calls entries (length entries)
                  ++ [Call_ibv_free_device_list fresh] ∧
    blocks w' = delete (next_block w) (blocks w) ∧
    (fresh = None → proxies = []).
Proof.
  intros fresh entries h0 Hwf.
  destruct (list_devices_scan drv w Hwf)
    as (proxies & w' & Hlist & Hlen & Hlook & Htr & Hb).
  fold fresh entries h0 in Hlen, Hlook, Htr.
  exists proxies, w'. split; [exact Hlist|].
  assert (Hfield : ∀ B (pf : IBDeviceProxy.t → B) (df : ibv_device → B),
    (∀ h dev, pf (snapshot drv h dev) = df dev) →
    map pf proxies = map df entries).
  { intros B pf df Hpf. apply list_eq. intros k.
    rewrite !list_lookup_fmap.
    destruct (entries !! k) as [dev|] eqn:Hk.
    - by rewrite (Hlook k dev Hk); simpl; rewrite Hpf.
    - apply lookup_ge_None in Hk.
      by rewrite (proj2 (lookup_ge_None proxies k)) by lia. }
  split_and!; try done; try (apply Hfield; done).
  - intros k dev Hk.
    destruct (proj1 (Forall_lookup _ _) Hwf k dev Hk) as (Hn & Hd & Hp & Hi).
    eexists. split; [by apply Hlook|].
    split_and!.
    + done.
    + unfold snapshot, IBDeviceProxy.guid. by rewrite <- !app_assoc.
    + intros Hfree. exact (c_prefix_nul_free _ _ Hfree Hn).
    + intros Hfree. exact (c_prefix_nul_free _ _ Hfree Hd).
    + intros Hfree. exact (c_prefix_nul_free _ _ Hfree Hp).
    + intros Hfree. exact (c_prefix_nul_free _ _ Hfree Hi).
  - intros Hnone. subst entries. rewrite Hnone in Hlen.
    by destruct proxies.
Qed.

Lemma list_devices_snapshots_every_entry_witness :
  ∃ proxies w',
    list_devices mock.healthy mock.start = (Ret proxies, w') ∧
    map IBDeviceProxy.name proxies = ["mlx5_0"; "mlx5_1"] ∧
    map IBDeviceProxy.kernel_index proxies = [0%Z; 1%Z] ∧
    trace w' = [Call_ibv_get_device_list;
                Call_ibv_get_device_index mock.mlx5_0;
                Call_ibv_get_device_guid mock.mlx5_0;
                Call_ibv_get_device_index mock.mlx5_1;
                Call_ibv_get_device_guid mock.mlx5_1;
                Call_ibv_free_device_list
                  (Some [mock.mlx5_0; mock.mlx5_1])].
Proof.
  destruct (list_devices_snapshots_every_entry mock.healthy mock.start)
    as (proxies & w' & Hlist & Hname & _ & _ & _ & _ & Hidx & Htr & _).
  - repeat constructor; vm_compute; lia.
  - exists proxies, w'. split; [exact Hlist|].
    split; [exact Hname|]. split; [|exact Htr].
    assert (Hrun : list_devices mock.healthy mock.start
                   = (Ret [snapshot mock.healthy [] mock.mlx5_0;
                           snapshot mock.healthy [] mock.mlx5_1],
                      snd (list_devices mock.healthy mock.start)))
      by reflexivity.
    rewrite Hlist in Hrun. by injection Hrun as ->.
Defined.

(** ** Reopening a proxy *)

(** [open()] when the fresh scan has a first match. *)
Lemma IBDeviceProxy_open_found (drv : driver) (self : IBDeviceProxy.t)
    (w : world) (k : nat) (dev : ibv_device) :
  let fresh := ibv_get_device_list drv (trace w) in
  let entries := entries_of fresh in
  let h0 := trace w ++ [Call_ibv_get_device_list] in
  entries !! k = Some dev →
  reported_index drv h0 entries k = Some (IBDeviceProxy.kernel_index self) →
  (∀ j, j < k → reported_index drv h0 entries j
                ≠ Some (IBDeviceProxy.kernel_index self)) →
  ∃ h w',
    IBDeviceProxy.open drv self w = (Ret h, w') ∧
    context_handle.get h
      = ibv_open_device drv (h0 ++ index_calls entries (S k)) dev ∧
    trace w' = h0 ++ index_calls entries (S k)
                  ++ [Call_ibv_open_device dev;
                      Call_ibv_free_device_list fresh].
Proof.
  intros fresh entries h0 Hk Hrep Hbefore.
  unfold IBDeviceProxy.open, scoped. unfold bind at 1.
  destruct (scoped_device_list.ctor drv w) as [o w1] eqn:Hctor.
  pose proof Hctor as Hctor_eq.
  rewrite scoped_device_list_ctor_eq in Hctor_eq.
  injection Hctor_eq as <- <-.
  match type of Hctor with
  | _ = (Ret ?x, ?y) => set (l := x) in *; set (w1 := y) in *
  end.
  destruct (lookup_by_kernel_index_scan drv w l w1
              (IBDeviceProxy.kernel_index self) w1 Hctor)
    as (r & w2 & Hr & Hb & Hn & Hspec).
  fold fresh entries in Hspec. change (trace w1) with h0 in Hspec.
  unfold bind at 1. rewrite Hr.
  destruct r as [dev'|].
  - destruct Hspec as (k' & Hdev' & Hrep' & Hbefore' & Htr).
    assert (k = k') as <-
      by (apply (first_match_unique
                   (λ j, reported_index drv h0 entries j
                         = Some (IBDeviceProxy.kernel_index self)));
          done).
    rewrite Hk in Hdev'. injection Hdev' as <-.
    rewrite context_handle_ctor_eq.
    unfold bind, scoped_device_list.dtor, shared_ptr_dtor, ret; simpl.
    rewrite lookup_insert_ne by (rewrite Hn; simpl; lia).
    rewrite Hb. subst w1. simpl. rewrite lookup_insert_eq. simpl.
    eexists _, _. split; [reflexivity|].
    unfold context_handle.get; simpl. rewrite Htr.
    split; [done|]. by rewrite <- !app_assoc.
  - destruct Hspec as [Hnone _]. by destruct (Hnone k).
Qed.

(** Re-resolution: on a driver that keeps seeing the same adapters with the
    same indexes, reopening the proxy that [list_devices()] made of entry
    [k] opens entry [k] itself, provided no earlier entry has the same
    index; the fresh list is released once the context is open. *)
Theorem IBDeviceProxy_reopen_round_trip (drv : driver)
    (devs : list ibv_device) (index_of : ibv_device → Z) (w : world)
    (proxies : list IBDeviceProxy.t) (w1 : world) (k : nat)
    (proxy : IBDeviceProxy.t) (dev : ibv_device) :
  stable drv devs index_of →
  list_devices drv w = (Ret proxies, w1) →
  proxies !! k = Some proxy →
  devs !! k = Some dev →
  (∀ j d, j < k → devs !! j = Some d → index_of d ≠ index_of dev) →
  ∃ h w2,
    IBDeviceProxy.open drv proxy w1 = (Ret h, w2) ∧
    context_handle.get h
      = ibv_open_device drv
          (trace w1 ++ [Call_ibv_get_device_list] ++ index_calls devs (S k))
          dev ∧
    trace w2 = trace w1 ++ [Call_ibv_get_device_list]
                  ++ index_calls devs (S k)
                  ++ [Call_ibv_open_device dev;
                      Call_ibv_free_device_list (Some devs)].
Proof.
  intros [Hlist Hindex] Hdevices Hproxy Hdev Hfirst.
  destruct (list_devices_scan drv w (list_devices_Ret _ _ _ _ Hdevices))
    as (proxies' & w1' & Heq & _ & Hlook & _).
  rewrite Hlist in Hlook. simpl in Hlook.
  rewrite Hdevices in Heq. injection Heq as <- <-.
  rewrite (Hlook k dev Hdev) in Hproxy. injection Hproxy as <-.
  destruct (IBDeviceProxy_open_found drv
              (snapshot drv
                 ((trace w ++ [Call_ibv_get_device_list])
                  ++ snapshot_calls devs k) dev) w1 k dev)
    as (h & w2 & Hopen & Hget & Htr).
  - by rewrite Hlist.
  - rewrite Hlist. unfold reported_index. simpl.
    by rewrite Hdev, !Hindex.
  - rewrite Hlist. intros j Hj. unfold reported_index. simpl.
    destruct (devs !! j) as [d|] eqn:Hd; [|done].
    rewrite !Hindex. intros [= Heq]. by apply (Hfirst j d).
  - rewrite Hlist in Hget, Htr. simpl in Hget, Htr.
    exists h, w2. split; [exact Hopen|].
    rewrite Hget, Htr. by rewrite <- !app_assoc.
Qed.

Lemma IBDeviceProxy_reopen_round_trip_witness :
  let w1 := snd (list_devices mock.healthy mock.start) in
  let proxy := snapshot mock.healthy [] mock.mlx5_1 in
  list_devices mock.healthy mock.start
    = (Ret [snapshot mock.healthy [] mock.mlx5_0; proxy], w1) ∧
  ∃ h w2,
    IBDeviceProxy.open mock.healthy proxy w1 = (Ret h, w2) ∧
    context_handle.get h = Some 8192%N.
Proof.
  intros w1 proxy.
  assert (Hlist : list_devices mock.healthy mock.start
                  = (Ret [snapshot mock.healthy [] mock.mlx5_0; proxy], w1))
    by reflexivity.
  split; [exact Hlist|].
  destruct (IBDeviceProxy_reopen_round_trip mock.healthy
              [mock.mlx5_0; mock.mlx5_1]
              (λ dev, if mock.is_mlx5_0 dev then 0%Z else 1%Z) mock.start
              [snapshot mock.healthy [] mock.mlx5_0; proxy]
              w1 1 proxy mock.mlx5_1)
    as (h & w2 & Hopen & Hget & _).
  - split; intros; reflexivity.
  - exact Hlist.
  - reflexivity.
  - reflexivity.
  - intros [|j] d Hj Hd; [|lia]. injection Hd as <-. vm_compute. congruence.
  - exists h, w2. split; [exact Hopen|]. rewrite Hget. reflexivity.
Defined.

(** ** A directory local to a function *)

(** Scoped release: a function that holds a [scoped_device_list] as a local
    and whose body only queries runs the body on the directory the
    constructor built and ends as the body ends; whether the body returns or
    throws, [ibv_free_device_list] is called exactly once, on the array of
    this enumeration, as the last call, and the directory's control block is
    gone. *)
Theorem local_list_released_on_every_path {A} (drv : driver)
    (body : scoped_device_list.t → M A) (w : world) :
  (∀ l, quiet (body l)) →
  let fresh := ibv_get_device_list drv (trace w) in
  ∃ l w1,
    scoped_device_list.ctor drv w = (Ret l, w1) ∧
    let r := scoped (scoped_device_list.ctor drv) scoped_device_list.dtor
               body w in
    r.1 = (body l w1).1 ∧
    (r.1 ≠ Undef →
     ∃ evs,
       trace r.2 = trace w ++ [Call_ibv_get_device_list] ++ evs
                     ++ [Call_ibv_free_device_list fresh] ∧
       releases evs = [] ∧
       blocks r.2 = delete (next_block w) (blocks w)).
Proof.
  intros Hquiet fresh. subst fresh.
  rewrite scoped_device_list_ctor_eq. eexists _, _. split; [reflexivity|].
  cbv zeta. unfold scoped, bind. rewrite scoped_device_list_ctor_eq.
  match goal with
  | |- context [body ?x ?y] => set (l := x); set (w1 := y)
  end.
  destruct (Hquiet l w1) as (Hb & evs & Ht & Hr).
  destruct (body l w1) as [[a|e|] w2]; simpl in Hb, Ht |- *.
  - unfold scoped_device_list.dtor, shared_ptr_dtor, ret; simpl.
    rewrite Hb, lookup_insert_eq. simpl. split; [done|]. intros _.
    exists evs. rewrite Ht. simpl.
    by rewrite delete_insert_eq, <- !app_assoc.
  - unfold scoped_device_list.dtor, shared_ptr_dtor, throw; simpl.
    rewrite Hb, lookup_insert_eq. simpl. split; [done|]. intros _.
    exists evs. rewrite Ht. simpl.
    by rewrite delete_insert_eq, <- !app_assoc.
  - split; [done|]. by intros [].
Qed.

Lemma local_list_released_on_every_path_witness :
  let r := scoped (scoped_device_list.ctor mock.healthy)
             scoped_device_list.dtor
             (λ l, scoped_device_list.lookup_by_kernel_index mock.healthy l 1)
             mock.start in
  r.1 = Ret (Some mock.mlx5_1) ∧
  ∃ evs,
    trace r.2 = trace mock.start ++ [Call_ibv_get_device_list] ++ evs
                  ++ [Call_ibv_free_device_list
                        (Some [mock.mlx5_0; mock.mlx5_1])] ∧
    releases evs = [] ∧
    blocks r.2 = delete (next_block mock.start) (blocks mock.start).
Proof.
  intros r.
  destruct (local_list_released_on_every_path mock.healthy
              (λ l, scoped_device_list.lookup_by_kernel_index mock.healthy l 1)
              mock.start)
    as (l & w1 & Hctor & Hout & Hrel).
  - intros l. apply quiet_lookup_by_kernel_index.
  - split; [reflexivity|]. apply Hrel. vm_compute. congruence.
Defined.

(** ** device_names *)

Lemma collect_loop_std_string (bound : nat) (arr : list ibv_device)
    (remaining i : nat) (w : world) :
  Forall (λ dev, terminated bound (name dev)) (drop i arr) →
  i + remaining = length arr →
  scoped_device_list.collect_loop (λ dev, std_string bound (name dev))
    (Some arr) remaining i w
  = (Ret (map (λ dev, c_prefix bound (name dev)) (drop i arr)), w).
Proof.
  revert i. induction remaining as [|r IH]; intros i Hwf Hlen.
  - by rewrite drop_ge by lia.
  - destruct (lookup_lt_is_Some_2 arr i) as [dev Hdev]; [lia|].
    rewrite (drop_S _ _ _ Hdev) in Hwf |- *.
    apply Forall_cons in Hwf as [Hwf_dev Hwf].
    simpl. unfold bind at 1. rewrite (deref_in_range _ _ _ _ Hdev).
    unfold bind at 1. rewrite (std_string_terminated _ _ _ Hwf_dev).
    unfold bind. by rewrite IH by (done || lia).
Qed.

(** [device_names()] on an enumeration whose entries' [name] buffers hold C
    strings (a NUL within [IBV_SYSFS_NAME_MAX] characters): it returns, in
    enumeration order, the C string of each entry's name buffer (none when
    the enumeration fails), which is the whole name where no name has a NUL
    inside; the only driver calls it makes are that enumeration and the one
    release of its array. *)
Theorem device_names_lists_every_name (drv : driver) (w : world) :
  let fresh := ibv_get_device_list drv (trace w) in
  let bound := IBV_SYSFS_NAME_MAX drv in
  Forall (λ dev, terminated bound (name dev)) (entries_of fresh) →
  ∃ w',
    adverbs_pyext.device_names drv w
      = (Ret (map (λ dev, c_prefix bound (name dev)) (entries_of fresh)),
         w') ∧
    (Forall (λ dev, nul_free (name dev) = true) (entries_of fresh) →
     adverbs_pyext.device_names drv w
       = (Ret (map name (entries_of fresh)), w')) ∧
    trace w' = trace w ++ [Call_ibv_get_device_list;
                           Call_ibv_free_device_list fresh] ∧
    blocks w' = delete (next_block w) (blocks w).
Proof.
  intros fresh bound Hwf.
  assert (Hrun : ∃ w',
    adverbs_pyext.device_names drv w
      = (Ret (map (λ dev, c_prefix bound (name dev)) (entries_of fresh)),
         w') ∧
    trace w' = trace w ++ [Call_ibv_get_device_list;
                           Call_ibv_free_device_list fresh] ∧
    blocks w' = delete (next_block w) (blocks w)).
  { unfold adverbs_pyext.device_names, scoped. unfold bind at 1.
    destruct (scoped_device_list.ctor drv w) as [o w1] eqn:Hctor.
    pose proof Hctor as Hctor_eq.
    rewrite scoped_device_list_ctor_eq in Hctor_eq.
    injection Hctor_eq as <- <-.
    rewrite (for_each_ctor _ _ _ _ _ Hctor).
    fold fresh bound. unfold scoped_device_list.get. simpl.
    assert (Hloop : ∀ w2,
      scoped_device_list.collect_loop
        (λ dev, std_string bound (name dev)) fresh
        (length (entries_of fresh)) 0 w2
      = (Ret (map (λ dev, c_prefix bound (name dev)) (entries_of fresh)),
         w2)).
    { intros w2. destruct fresh as [arr|]; simpl; [|done].
      rewrite collect_loop_std_string; by rewrite ?drop_0. }
    rewrite Hloop.
    unfold bind, scoped_device_list.dtor, shared_ptr_dtor, ret; simpl.
    rewrite lookup_insert_eq. simpl.
    eexists. split; [reflexivity|]. simpl.
    by rewrite delete_insert_eq, <- app_assoc. }
  destruct Hrun as (w' & Hrun & Htr & Hb).
  exists w'. split_and!; try done.
  intros Hfree. rewrite Hrun. do 2 f_equal.
  apply map_ext_Forall.
  apply Forall_forall. intros dev Hin.
  apply c_prefix_nul_free.
  - exact (proj1 (Forall_forall _ _) Hfree dev Hin).
  - exact (proj1 (Forall_forall _ _) Hwf dev Hin).
Qed.

Lemma device_names_lists_every_name_witness :
  ∃ w',
    adverbs_pyext.device_names mock.healthy mock.start
      = (Ret ["mlx5_0"; "mlx5_1"], w') ∧
    trace w' = [Call_ibv_get_device_list;
                Call_ibv_free_device_list
                  (Some [mock.mlx5_0; mock.mlx5_1])].
Proof.
  destruct (device_names_lists_every_name mock.healthy mock.start)
    as (w' & Hrun & _ & Htr & _).
  - repeat constructor; vm_compute; lia.
  - exists w'. split; [exact Hrun | exact Htr].
Defined.

(** ** expand_flags and expand_flags2 *)

Import port_flags.

Lemma expand_flags_loop_filter (c : Z) (fs_ flagset : list Z) :
  expand_flags_loop c fs_ flagset
  = flagset
    ++ List.filter (λ f, negb (Z.land c (to_uint32_t f) =? 0)%Z) fs_.
Proof.
  revert flagset. induction fs_ as [|f rest IH]; intros flagset; simpl.
  - by rewrite app_nil_r.
  - rewrite IH. destruct (Z.land c (to_uint32_t f) =? 0)%Z; simpl; [done|].
    by rewrite <- app_assoc.
Qed.

Lemma expand_flags2_loop_filter (c : Z) (fs_ flagset : list Z) :
  expand_flags2_loop c fs_ flagset
  = flagset ++ List.filter (λ f, negb (Z.land c f =? 0)%Z) fs_.
Proof.
  revert flagset. induction fs_ as [|f rest IH]; intros flagset; simpl.
  - by rewrite app_nil_r.
  - rewrite IH. destruct (Z.land c f =? 0)%Z; simpl; [done|].
    by rewrite <- app_assoc.
Qed.

(** [expand_flags] returns, in the order of its table, exactly the flags of
    the table that share a bit with [port_cap_flags], and [expand_flags2]
    does the same with its table and [port_cap_flags2]: no flag outside the
    table, none twice unless the table names it twice. *)
Theorem expand_flags_select_in_table_order (v : ibv_port_cap_flags)
    (v2 : ibv_port_cap_flags2) (attr : caps) :
  expand_flags v attr
  = List.filter
      (λ f, negb (Z.land (port_cap_flags attr) (to_uint32_t f) =? 0)%Z)
      (fs v) ∧
  expand_flags2 v2 attr
  = List.filter (λ f, negb (Z.land (port_cap_flags2 attr) f =? 0)%Z)
      (fs2 v2).
Proof.
  split.
  - unfold expand_flags. by rewrite expand_flags_loop_filter.
  - unfold expand_flags2. by rewrite expand_flags2_loop_filter.
Qed.

Lemma single_bit_uint32 (f : Z) : single_bit f → to_uint32_t f = f.
Proof.
  intros (k & Hk & ->). unfold to_uint32_t. apply Z.mod_small.
  split; [apply Z.pow_nonneg; lia|].
  apply Z.pow_lt_mono_r; lia.
Qed.

Lemma land_single_bit (c f : Z) :
  single_bit f → Z.land c f = 0%Z ∨ Z.land c f = f.
Proof.
  intros (k & Hk & ->).
  destruct (Z.testbit c k) eqn:Hbit; [right|left];
    apply Z.bits_inj'; intros n Hn;
    rewrite Z.land_spec, ?Z.bits_0, Z.pow2_bits_eqb by lia;
    destruct (Z.eqb_spec k n) as [->|Hne];
    rewrite ?Hbit, ?andb_false_r; reflexivity.
Qed.

Lemma single_bit_shiftl (k : Z) : (0 ≤ k < 31)%Z → single_bit (Z.shiftl 1 k).
Proof.
  intros Hk. exists k. split; [done|].
  rewrite Z.shiftl_mul_pow2 by lia. lia.
Qed.

Lemma or_all_selected (c : Z) (conv : Z → Z) (flags : list Z) :
  Forall single_bit flags →
  (∀ f, single_bit f → conv f = f) →
  or_all (List.filter (λ f, negb (Z.land c (conv f) =? 0)%Z) flags)
  = Z.land c (or_all flags).
Proof.
  intros Hbits Hconv. induction Hbits as [|f rest Hf Hrest IH]; simpl.
  - by rewrite Z.land_0_r.
  - rewrite (Hconv f Hf), Z.land_lor_distr_r, <- IH.
    destruct (Z.eqb_spec (Z.land c f) 0) as [Hzero|Hset]; simpl.
    + by rewrite Hzero.
    + destruct (land_single_bit c f Hf) as [?| ->]; [done|]. reflexivity.
Qed.

(** Decoding loses nothing the tables name: when every flag of a table is a
    single bit, or-ing the flags that [expand_flags] returns gives back
    [port_cap_flags] restricted to the bits of the table, and likewise for
    [expand_flags2] and [port_cap_flags2]. *)
Theorem expand_flags_or_round_trip (v : ibv_port_cap_flags)
    (v2 : ibv_port_cap_flags2) (attr : caps) :
  Forall single_bit (fs v) →
  Forall single_bit (fs2 v2) →
  or_all (expand_flags v attr)
    = Z.land (port_cap_flags attr) (or_all (fs v)) ∧
  or_all (expand_flags2 v2 attr)
    = Z.land (port_cap_flags2 attr) (or_all (fs2 v2)).
Proof.
  intros Hbits Hbits2. split.
  - unfold expand_flags. rewrite expand_flags_loop_filter, app_nil_l.
    exact (or_all_selected (port_cap_flags attr) to_uint32_t (fs v) Hbits
             single_bit_uint32).
  - unfold expand_flags2. rewrite expand_flags2_loop_filter, app_nil_l.
    exact (or_all_selected (port_cap_flags2 attr) (λ f, f) (fs2 v2) Hbits2
             (λ f _, eq_refl)).
Qed.

Lemma expand_flags_or_round_trip_witness :
  let attr := {| port_cap_flags := 0x4051; port_cap_flags2 := 0x0430 |} in
  expand_flags header_flags attr
    = [IBV_PORT_OPT_IPD_SUP header_flags; IBV_PORT_SL_MAP_SUP header_flags;
       IBV_PORT_EXTENDED_SPEEDS_SUP header_flags] ∧
  or_all (expand_flags header_flags attr) = 0x4050%Z ∧
  or_all (expand_flags2 header_flags2 attr) = 0x0430%Z.
Proof.
  intros attr.
  destruct (expand_flags_or_round_trip header_flags header_flags2 attr)
    as [H1 H2].
  - repeat constructor; apply single_bit_shiftl; lia.
  - repeat constructor; apply single_bit_shiftl; lia.
  - split; [reflexivity|]. rewrite H1, H2. split; reflexivity.
Defined.

(** ** The earlier scoped_device_list *)

Lemma earlier_ctor_eq (drv : driver) (w : world) :
  earlier.scoped_device_list.ctor drv w
  = (Ret {| earlier.scoped_device_list._device_list :=
              ibv_get_device_list drv (trace w);
            earlier.scoped_device_list.num_devices :=
              match ibv_get_device_list drv (trace w) with
              | Some devs => Some (Z.of_nat (length devs))
              | None => None
              end |},
     {| blocks := blocks w; next_block := next_block w;
        trace := trace w ++ [Call_ibv_get_device_list] |}).
Proof. reflexivity. Qed.

(** The index loop of the earlier [lookup_by_name] and the range-for of the
    later one are the same scan. *)
Lemma earlier_lookup_by_name_loop_eq (drv : driver) p (name_ : string)
    (remaining i : nat) (w : world) :
  earlier.scoped_device_list.lookup_by_name_loop drv p name_ remaining i w
  = scoped_device_list.lookup_loop
      (λ dev, ret (strncmp (name dev) name_ (IBV_SYSFS_NAME_MAX drv) =? 0)%Z)
      p remaining i w.
Proof.
  revert i w. induction remaining as [|r IH]; intros i w; [done|].
  simpl. unfold bind, ret.
  destruct (scoped_device_list.deref p i w) as [[dev|e|] w2]; try done.
  destruct (strncmp (name dev) name_ (IBV_SYSFS_NAME_MAX drv) =? 0)%Z;
    [done|]. apply IH.
Qed.

(** The rewrite of the class kept [lookup_by_name]: on directories built
    from the same successful enumeration the earlier, index-loop version and
    the later, predicate-based version return the same entry for every name,
    in every state. *)
Theorem lookup_by_name_versions_agree (drv : driver) (w : world)
    (l0 : earlier.scoped_device_list.t) (w0 : world)
    (l : scoped_device_list.t) (w1 : world) (name_ : string) (w2 : world) :
  earlier.scoped_device_list.ctor drv w = (Ret l0, w0) →
  scoped_device_list.ctor drv w = (Ret l, w1) →
  is_Some (ibv_get_device_list drv (trace w)) →
  earlier.scoped_device_list.lookup_by_name drv l0 name_ w2
  = scoped_device_list.lookup_by_name drv l name_ w2.
Proof.
  intros Hctor0 Hctor [arr Harr].
  rewrite earlier_ctor_eq, Harr in Hctor0. injection Hctor0 as <- <-.
  unfold scoped_device_list.lookup_by_name.
  rewrite (lookup_by_predicate_ctor _ _ _ _ _ Hctor).
  destruct (scoped_device_list_ctor_fields _ _ _ _ Hctor) as [-> _].
  rewrite Harr. simpl.
  unfold earlier.scoped_device_list.lookup_by_name,
    earlier.scoped_device_list.read_num_devices, bind, ret. simpl.
  rewrite Nat2Z.id. apply earlier_lookup_by_name_loop_eq.
Qed.

Lemma lookup_by_name_versions_agree_witness :
  ∃ l0,
    fst (earlier.scoped_device_list.ctor mock.healthy mock.start) = Ret l0 ∧
    earlier.scoped_device_list.lookup_by_name mock.healthy l0 "mlx5_1"
      mock.start
    = (Ret (Some mock.mlx5_1), mock.start).
Proof.
  eexists. split; [reflexivity|].
  rewrite (lookup_by_name_versions_agree mock.healthy mock.start _
             (snd (earlier.scoped_device_list.ctor mock.healthy mock.start))
             mock.the_list
             (snd (scoped_device_list.ctor mock.healthy mock.start))
             "mlx5_1" mock.start eq_refl eq_refl (mk_is_Some _ _ eq_refl)).
  reflexivity.
Defined.

Lemma earlier_run_releases (drv : driver)
    (l : earlier.scoped_device_list.t) :
  ∀ prog env w env' w',
    aliases l env →
    earlier.list_run drv prog env w = (Ret env', w') →
    aliases l env' ∧
    trace w' = trace w
               ++ replicate (destructions prog)
                    (Call_ibv_free_device_list
                       (earlier.scoped_device_list.get l)).
Proof.
  induction prog as [|s rest IH]; intros env w env' w' Hal Hrun.
  - injection Hrun as <- <-. split; [done|]. simpl. by rewrite app_nil_r.
  - unfold earlier.list_run in Hrun. simpl in Hrun. unfold bind in Hrun.
    destruct (earlier.list_step drv env s w) as [[env1|e|] w2] eqn:Hstep;
      try discriminate.
    destruct s as [dst src|x]; simpl in Hstep.
    + destruct (env !! src) as [v|] eqn:Hsrc; [|discriminate].
      destruct (env !! dst) as [v'|] eqn:Hdst; [discriminate|].
      pose proof (Hal _ _ Hsrc) as ->.
      unfold earlier.scoped_device_list.copy,
        earlier.scoped_device_list.read_num_devices, bind, ret in Hstep.
      destruct (earlier.scoped_device_list.num_devices l) as [n|] eqn:Hnum;
        [|discriminate].
      injection Hstep as <- <-.
      apply (IH _ _ _ _ ) in Hrun; [exact Hrun|].
      intros y v Hy. destruct (decide (y = dst)) as [->|Hyd].
      * rewrite lookup_insert_eq in Hy. injection Hy as <-.
        destruct l. simpl in *. by subst.
      * rewrite lookup_insert_ne in Hy by done. by apply (Hal y).
    + destruct (env !! x) as [v|] eqn:Hx; [|discriminate].
      pose proof (Hal _ _ Hx) as ->.
      unfold earlier.scoped_device_list.dtor, bind, log, ret in Hstep.
      injection Hstep as <- <-.
      apply (IH _ _ _ _ ) in Hrun as [Hal' Htr].
      * split; [done|]. rewrite Htr. simpl.
        unfold destructions. simpl. by rewrite <- app_assoc.
      * intros y v Hy. destruct (decide (y = x)) as [->|Hyx].
        -- by rewrite lookup_delete_eq in Hy.
        -- rewrite lookup_delete_ne in Hy by done. by apply (Hal y).
Qed.

(** The earlier class releases once per object, not once per array: in any
    client program that copies and destroys directories descending from one
    constructed object, every destruction, of the original or of a copy,
    calls [ibv_free_device_list] on the same array, so the program makes as
    many release calls as it has destructions, and no other call. *)
Theorem earlier_list_released_per_destruction (drv : driver) (w0 : world)
    (l : earlier.scoped_device_list.t) (w1 : world)
    (prog : list earlier.list_stmt)
    (env' : gmap nat earlier.scoped_device_list.t) (w' : world) :
  earlier.scoped_device_list.ctor drv w0 = (Ret l, w1) →
  earlier.list_run drv prog {[0 := l]} w1 = (Ret env', w') →
  earlier.scoped_device_list.get l = ibv_get_device_list drv (trace w0) ∧
  aliases l env' ∧
  trace w' = trace w1
             ++ replicate (destructions prog)
                  (Call_ibv_free_device_list
                     (ibv_get_device_list drv (trace w0))).
Proof.
  intros Hctor Hrun.
  assert (Hget : earlier.scoped_device_list.get l
                 = ibv_get_device_list drv (trace w0)).
  { rewrite earlier_ctor_eq in Hctor. by injection Hctor as <- _. }
  split; [exact Hget|]. rewrite <- Hget.
  apply (earlier_run_releases drv l prog {[0 := l]}); [|exact Hrun].
  intros y v Hy. by apply lookup_singleton_Some in Hy as [_ <-].
Qed.

Lemma earlier_list_released_per_destruction_witness :
  let w1 := snd (earlier.scoped_device_list.ctor mock.healthy mock.start) in
  let prog := [earlier.CopyList 1 0; earlier.DestroyList 0;
               earlier.DestroyList 1] in
  ∃ l w',
    earlier.scoped_device_list.ctor mock.healthy mock.start = (Ret l, w1) ∧
    earlier.list_run mock.healthy prog {[0 := l]} w1 = (Ret ∅, w') ∧
    trace w'
    = [Call_ibv_get_device_list;
       Call_ibv_free_device_list (Some [mock.mlx5_0; mock.mlx5_1]);
       Call_ibv_free_device_list (Some [mock.mlx5_0; mock.mlx5_1])].
Proof.
  intros w1 prog. eexists _, _.
  split; [reflexivity|]. split; [reflexivity|].
  match goal with
  | |- trace ?w' = _ =>
      destruct (earlier_list_released_per_destruction mock.healthy mock.start
                  _ w1 prog ∅ w' eq_refl eq_refl) as (_ & _ & Htr)
  end.
  rewrite Htr. reflexivity.
Defined.
